(** * panphon.segment: a phonological segment as a vector of features

    Shallow embedding of [src/panphon/segment.py] (class [Segment]) and the
    properties of its construction, field access, superset test,
    intersection, string rendering and distance functions. *)

From Stdlib Require Import ZArith QArith Qcanon Ascii String List Lia.
From stdpp Require Import gmap strings list fin_maps pretty.

Local Open Scope Z_scope.
Local Open Scope string_scope.

(** ** Exceptions and results

    A Python call either returns a value or raises.  The exceptions that the
    module can raise are the built-in lookup and unpacking errors, the
    division and overflow errors of [/], and the error of the
    regular-expression compiler
    ([RegexUnsupported] marks pattern syntax outside the modelled fragment). *)

Inductive pykey : Type :=
| KStr (s : string)
| KInt (z : Z).

Inductive exn : Type :=
| KeyError (arg : pykey)
| NameError (name : string)
| AttributeError (attr : string)
| ValueError (msg : string)
| ZeroDivisionError
| OverflowError
| RegexError (msg : string) (pos : nat)
| RegexUnsupported (pos : nat).

Inductive result (A : Type) : Type :=
| Ok (a : A)
| Err (e : exn).
Arguments Ok {A} a.
Arguments Err {A} e.

#[global] Instance result_ret : MRet result := fun A a => Ok a.
#[global] Instance result_bind : MBind result := fun A B f r =>
  match r with
  | Ok a => f a
  | Err e => Err e
  end.

(** [d[k]] on a dict: the stored value, or [KeyError(k)]; once for string
    keys and once for integer keys. *)
Definition subscript {V : Type} (d : gmap string V) (k : string) : result V :=
  match d !! k with
  | Some v => Ok v
  | None => Err (KeyError (KStr k))
  end.

Definition subscript_int {V : Type} (d : gmap Z V) (k : Z) : result V :=
  match d !! k with
  | Some v => Ok v
  | None => Err (KeyError (KInt k))
  end.

(** A list comprehension [[f x for x in l]] whose body may raise: elements
    are evaluated left to right and the first exception aborts. *)
Fixpoint comprehension {A B : Type} (f : A -> result B) (l : list A)
  : result (list B) :=
  match l with
  | [] => Ok []
  | x :: l' => y ← f x; ys ← comprehension f l'; Ok (y :: ys)
  end.

(** ** The regular-expression engine used by the constructor

    [re.finditer(pattern, string)] first compiles [pattern] and only then
    scans [string].  The fragment below covers what the constructor's
    pattern is built from: literal characters, the class [\w], groups,
    alternation and the repetition operators.  The compiler rejects a
    repetition operator that has no item before it in its branch with
    "nothing to repeat" and the position of the operator. *)

Module Regex.

Inductive node : Type :=
| Empty
| Lit (c : ascii)
| WordChar
| Cat (a b : node)
| Branch (a b : node)
| Group (n : nat) (a : node)
| Star (a : node)
| Plus (a : node)
| Opt (a : node).

Record pstate : Type := PState {
  rest : list ascii;
  pos : nat;
  ngroups : nat
}.

Definition is_repeat (r : node) : bool :=
  match r with
  | Star _ | Plus _ | Opt _ => true
  | _ => false
  end.

Definition seq_of (items : list node) : node :=
  foldr (fun r acc => match acc with Empty => r | _ => Cat r acc end) Empty items.

Definition quantify (op : ascii) (r : node) : node :=
  if Ascii.eqb op "+" then Plus r
  else if Ascii.eqb op "*" then Star r
  else Opt r.

Definition is_quantifier (c : ascii) : bool :=
  Ascii.eqb c "+" || Ascii.eqb c "*" || Ascii.eqb c "?".

Definition is_unmodelled (c : ascii) : bool :=
  Ascii.eqb c "." || Ascii.eqb c "[" || Ascii.eqb c "^" || Ascii.eqb c "$"
  || Ascii.eqb c "{".

Definition is_alnum (c : ascii) : bool :=
  let n := nat_of_ascii c in
  ((48 <=? n) && (n <=? 57) || (65 <=? n) && (n <=? 90)
   || (97 <=? n) && (n <=? 122))%nat.

(** [\w]: letters, digits and the underscore.  Only the ASCII word
    characters are covered; the letters and digits beyond ASCII that [\w]
    also matches on text are not, so a scan is that of the library on ASCII
    subjects only. *)
Definition is_word (c : ascii) : bool :=
  is_alnum c || Ascii.eqb c "_".

(** The pattern parser: [parse_branches] reads alternatives separated by
    [|] up to a closing parenthesis or the end; [parse_items] reads the
    items of one alternative, [acc] holding those read so far, last first. *)
Fixpoint parse_branches (fuel : nat) (st : pstate) : result (node * pstate) :=
  match fuel with
  | O => Err (RegexUnsupported (pos st))
  | S fuel' =>
    '(a, st1) ← parse_items fuel' st [];
    match rest st1 with
    | c :: tl =>
      if Ascii.eqb c "|" then
        '(b, st2) ← parse_branches fuel' (PState tl (S (pos st1)) (ngroups st1));
        Ok (Branch a b, st2)
      else Ok (a, st1)
    | [] => Ok (a, st1)
    end
  end
with parse_items (fuel : nat) (st : pstate) (acc : list node)
  : result (node * pstate) :=
  match fuel with
  | O => Err (RegexUnsupported (pos st))
  | S fuel' =>
    match rest st with
    | [] => Ok (seq_of (rev acc), st)
    | c :: tl =>
      if Ascii.eqb c ")" || Ascii.eqb c "|" then Ok (seq_of (rev acc), st)
      else if Ascii.eqb c "(" then
        let gid := S (ngroups st) in
        '(body, st1) ← parse_branches fuel' (PState tl (S (pos st)) gid);
        match rest st1 with
        | c' :: tl' =>
          if Ascii.eqb c' ")" then
            parse_items fuel' (PState tl' (S (pos st1)) (ngroups st1))
                        (Group gid body :: acc)
          else Err (RegexError "missing ), unterminated subpattern" (pos st))
        | [] => Err (RegexError "missing ), unterminated subpattern" (pos st))
        end
      else if is_quantifier c then
        match acc with
        | [] => Err (RegexError "nothing to repeat" (pos st))
        | last :: acc' =>
          if is_repeat last then Err (RegexUnsupported (pos st))
          else parse_items fuel' (PState tl (S (pos st)) (ngroups st))
                           (quantify c last :: acc')
        end
      else if Ascii.eqb c "\" then
        match tl with
        | [] => Err (RegexError "bad escape (end of pattern)" (pos st))
        | e :: tl' =>
          if Ascii.eqb e "w" then
            parse_items fuel' (PState tl' (2 + pos st) (ngroups st))
                        (WordChar :: acc)
          else if is_alnum e then Err (RegexUnsupported (pos st))
          else parse_items fuel' (PState tl' (2 + pos st) (ngroups st))
                           (Lit e :: acc)
        end
      else if is_unmodelled c then Err (RegexUnsupported (pos st))
      else parse_items fuel' (PState tl (S (pos st)) (ngroups st))
                       (Lit c :: acc)
    end
  end.

(** A compiled pattern: its syntax tree and its number of groups. *)
Definition compile (pattern : string) : result (node * nat) :=
  let cs := list_ascii_of_string pattern in
  '(r, st) ← parse_branches (2 * length cs + 2) (PState cs 0 0);
  match rest st with
  | [] => Ok (r, ngroups st)
  | _ => Err (RegexError "unbalanced parenthesis" (pos st))
  end.

(** Backtracking matcher in continuation-passing style: [run r s cs k]
    matches [r] at the head of [s] and hands the remaining input and the
    groups captured so far to [k]; alternatives are tried left to right and
    repetitions are greedy.  [fuel] bounds the depth of the search. *)
Fixpoint run {A : Type} (fuel : nat) (r : node) (s : list ascii)
    (cs : gmap nat string) (k : list ascii -> gmap nat string -> option A)
  : option A :=
  match fuel with
  | O => None
  | S fuel' =>
    match r with
    | Empty => k s cs
    | Lit c =>
      match s with
      | x :: s' => if Ascii.eqb x c then k s' cs else None
      | [] => None
      end
    | WordChar =>
      match s with
      | x :: s' => if is_word x then k s' cs else None
      | [] => None
      end
    | Cat a b => run fuel' a s cs (fun s' cs' => run fuel' b s' cs' k)
    | Branch a b =>
      match run fuel' a s cs k with
      | Some x => Some x
      | None => run fuel' b s cs k
      end
    | Group n a =>
      run fuel' a s cs (fun s' cs' =>
        let text := string_of_list_ascii (take (length s - length s') s) in
        k s' (<[n := text]> cs'))
    | Star a =>
      match run fuel' a s cs (fun s' cs' =>
              if (length s' <? length s)%nat then run fuel' (Star a) s' cs' k
              else None) with
      | Some x => Some x
      | None => k s cs
      end
    | Plus a => run fuel' a s cs (fun s' cs' => run fuel' (Star a) s' cs' k)
    | Opt a =>
      match run fuel' a s cs k with
      | Some x => Some x
      | None => k s cs
      end
    end
  end.

Fixpoint size (r : node) : nat :=
  match r with
  | Empty | Lit _ | WordChar => 1
  | Cat a b | Branch a b => S (size a + size b)
  | Group _ a | Star a | Plus a | Opt a => S (size a)
  end.

(** [m.groups()]: the text of groups 1..n, [None] for a group that took no
    part in the match. *)
Definition groups (n : nat) (cs : gmap nat string) : list (option string) :=
  (fun i => cs !! S i) <$> seq 0 n.

(** The non-overlapping matches of [r] in [s], leftmost first; after an
    empty match the scan advances by one character. *)
Fixpoint scan (fuel : nat) (r : node) (n : nat) (s : list ascii)
  : list (list (option string)) :=
  match fuel with
  | O => []
  | S fuel' =>
    let skip := match s with [] => [] | _ :: tl => scan fuel' r n tl end in
    match run ((size r + 2) * (length s + 2)) r s ∅
              (fun s' cs => Some (s', cs)) with
    | Some (s', cs) =>
      groups n cs ::
        (if (length s' <? length s)%nat then scan fuel' r n s' else skip)
    | None => skip
    end
  end.

(** [re.finditer(pattern, string)], each match given by its [groups()]. *)
Definition finditer (pattern text : string)
  : result (list (list (option string))) :=
  '(r, n) ← compile pattern;
  let s := list_ascii_of_string text in
  Ok (scan (S (length s)) r n s).

End Regex.


(** ** The class [Segment] *)

(** Lines 19-20: the two translation tables.  Every instance binds the same
    literal and no method rebinds them, so they are constants of the class. *)
Definition n2s : gmap Z string := {[ -1 := "-"; 0 := "0"; 1 := "+" ]}.

Definition s2n : gmap string Z :=
  list_to_map ((fun '(v, k) => (k, v)) <$> map_to_list n2s).

(** The instance state: the schema [names] and the store [data].  Feature
    values are modelled as integers. *)
Record Segment : Type := mkSegment {
  names : list string;
  data : gmap string Z
}.

(** The pattern literal of line 29, character for character. *)
Definition ftstr_pattern : string := "(+|0|-)(\w+)".

(** Lines 23-28: the store after the default-fill loop. *)
Definition fill_defaults (names : list string) (features : gmap string Z)
  : gmap string Z :=
  foldl (fun d name =>
           match features !! name with
           | Some v => <[name := v]> d
           | None => <[name := 0]> d
           end) ∅ names.

(** Lines 30-31: the body of the loop over the matches, [v, k = m.groups()]
    followed by [self.data[k] = self.s2n[v]]. *)
Definition apply_match (d : gmap string Z) (m : list (option string))
  : result (gmap string Z) :=
  match m with
  | [Some v; Some k] => n ← subscript s2n v; Ok (<[k := n]> d)
  | _ => Err (ValueError "not enough or too many values to unpack")
  end.

Fixpoint apply_matches (d : gmap string Z) (ms : list (list (option string)))
  : result (gmap string Z) :=
  match ms with
  | [] => Ok d
  | m :: ms' => d' ← apply_match d m; apply_matches d' ms'
  end.

(** [Segment(names, features, ftstr)]. *)
Definition __init__ (names : list string) (features : gmap string Z)
    (ftstr : string) : result Segment :=
  let d := fill_defaults names features in
  ms ← Regex.finditer ftstr_pattern ftstr;
  d' ← apply_matches d ms;
  Ok (mkSegment names d').

Definition __getitem__ (self : Segment) (key : string) : result Z :=
  subscript (data self) key.

(** A mutating method returns its outcome together with the state it
    leaves behind, so that a failing call still shows what it did to
    [self]. *)
Definition __setitem__ (self : Segment) (key : string) (value : Z)
  : result unit * Segment :=
  if bool_decide (key ∈ names self) then
    (Ok (), mkSegment (names self) (<[key := value]> (data self)))
  else (Err (KeyError (KStr "Unknown feature name.")), self).

Definition join (sep : string) (l : list string) : string :=
  match l with
  | [] => ""
  | x :: l' => foldl (fun acc y => acc ++ sep ++ y) x l'
  end.

Definition __repr__ (self : Segment) : result string :=
  pairs ← comprehension
            (fun k => v ← subscript (data self) k;
                      sym ← subscript_int n2s v;
                      Ok (sym, k)) (names self);
  let fts := join ", " ((fun '(sym, k) => sym ++ k) <$> pairs) in
  Ok ("[" ++ fts ++ "]").

Definition __iter__ (self : Segment) : list string := names self.

Definition items (self : Segment) : result (list (string * Z)) :=
  comprehension (fun k => v ← subscript (data self) k; Ok (k, v)) (names self).

(** The generator of [iteritems], by the sequence it yields when consumed. *)
Definition iteritems (self : Segment) : result (list (string * Z)) :=
  comprehension (fun k => v ← subscript (data self) k; Ok (k, v)) (names self).

(** [self.data.update(segment)] for a dict [segment]: every pair of the
    argument is stored, replacing the value of a key already present. *)
Definition update (self : Segment) (segment : gmap string Z)
  : result unit * Segment :=
  (Ok (), mkSegment (names self) (segment ∪ data self)).

(** *** Name resolution inside [match]

    The body of [match] reads the name [features].  A name that is not a
    local of the function is looked up among the module's globals and then
    among the built-ins; one that is bound nowhere raises [NameError]. *)

Inductive pyobj : Type :=
| ObjSegment (s : Segment)
| ObjDict (d : gmap string Z)
| ObjOpaque (name : string).

(** Names bound at module level (lines 3-9). *)
Definition module_globals : list string :=
  ["absolute_import"; "division"; "print_function"; "unicode_literals";
   "re"; "Segment"].

(** The built-ins the module refers to. *)
Definition builtins : list string :=
  ["object"; "KeyError"; "iter"; "all"; "dict"; "set"; "map"; "sum"; "abs";
   "zip"; "len"; "int"].

Definition load_name (locals : list (string * pyobj)) (name : string)
  : result pyobj :=
  match list_find (fun b => b.1 = name) locals with
  | Some (_, (_, o)) => Ok o
  | None =>
    if bool_decide (name ∈ (module_globals ++ builtins)%list) then Ok (ObjOpaque name)
    else Err (NameError name)
  end.

(** [o.items()]. *)
Definition items_of (o : pyobj) : result (list (string * Z)) :=
  match o with
  | ObjDict d => Ok (map_to_list d)
  | ObjSegment s => items s
  | ObjOpaque _ => Err (AttributeError "items")
  end.

(** Line 79: [all([self.data[k] == v for (k, v) in features.items()])]. *)
Definition match_ (self : Segment) (other : gmap string Z) : result bool :=
  fs ← load_name [("self", ObjSegment self); ("other", ObjDict other)]
                 "features";
  ps ← items_of fs;
  bs ← comprehension
         (fun '(k, v) => x ← subscript (data self) k; Ok (bool_decide (x = v)))
         ps;
  Ok (forallb id bs).

Definition __ge__ (self : Segment) (other : gmap string Z) : result bool :=
  match_ self other.

(** *** Intersection *)

(** [set(d.items())]. *)
Definition item_set (d : gmap string Z) : gset (string * Z) :=
  list_to_set (map_to_list d).

(** [dict(pairs)]: the pairs are stored one after the other. *)
Definition dict_of (pairs : list (string * Z)) : gmap string Z :=
  foldl (fun d '(k, v) => <[k := v]> d) ∅ pairs.

Definition intersection (self other : Segment) : gmap string Z :=
  dict_of (elements (item_set (data self) ∩ item_set (data other))).

Definition __and__ (self other : Segment) : gmap string Z :=
  intersection self other.

(** *** Vectors and distances *)

Definition numeric (self : Segment) : result (list Z) :=
  comprehension (subscript (data self)) (names self).

(** [string()], by the sequence the lazy [map] yields when consumed. *)
Definition string_ (self : Segment) : result (list string) :=
  xs ← numeric self;
  comprehension (subscript_int n2s) xs.

(** The built-in [sum]: a left fold from 0. *)
Definition py_sum (l : list Z) : Z := foldl Z.add 0 l.

Definition distance (self other : Segment) : result Z :=
  xs ← numeric self;
  ys ← numeric other;
  Ok (py_sum ((fun '(a, b) => Z.abs (a - b)) <$> zip xs ys)).

Definition Z2Qc (z : Z) : Qc := Q2Qc (inject_Z z).

(** *** True division of integers

    [a / b] under [from __future__ import division] yields a binary64
    float: the double nearest to the exact quotient, ties going to the even
    significand, [OverflowError] when that double would not be finite and
    [ZeroDivisionError] when [b] is 0.  A finite double is an integer
    multiple of 2^-1074, and it is modelled by that rational number. *)

(** The integer nearest to [num / den], ties to even, for [0 <= num] and
    [0 < den]. *)
Definition round_half_even (num den : Z) : Z :=
  let fl := num / den in
  let rem := num mod den in
  if (2 * rem <? den)%Z then fl
  else if (den <? 2 * rem)%Z then fl + 1
  else if Z.even fl then fl
  else fl + 1.

(** The binary exponent of [p / q], that is [e] with
    [2^e <= p / q < 2^(e+1)], for positive [p] and [q]. *)
Definition floor_log2_quot (p q : Z) : Z :=
  let e0 := Z.log2 p - Z.log2 q in
  let reached :=
    if (0 <=? e0)%Z then (q * 2 ^ e0 <=? p)%Z
    else (q <=? p * 2 ^ (- e0))%Z in
  if reached then e0 else e0 - 1.

(** The double nearest to [p / q], as a multiple of 2^-1074: the quotient
    is rounded to a multiple of [2^k], where [k] leaves 53 significant bits
    and is never below the exponent -1074 of the subnormal doubles. *)
Definition binary64_scaled (p q : Z) : Z :=
  let e := floor_log2_quot p q in
  let k := Z.max e (-1022) - 52 in
  let r :=
    if (0 <=? k)%Z then round_half_even p (q * 2 ^ k)
    else round_half_even (p * 2 ^ (- k)) q in
  r * 2 ^ (k + 1074).

Definition truediv (a : Z) (b : nat) : result Qc :=
  if bool_decide (b = 0%nat) then Err ZeroDivisionError
  else if bool_decide (a = 0) then Ok 0%Qc
  else
    let s := binary64_scaled (Z.abs a) (Z.of_nat b) in
    if (2 ^ 2098 <=? s)%Z then Err OverflowError
    else Ok (Q2Qc ((Z.sgn a * s) # Z.to_pos (2 ^ 1074))).

Definition norm_distance (self other : Segment) : result Qc :=
  d ← distance self other;
  truediv d (length (names self)).

Definition __sub__ (self other : Segment) : result Qc :=
  norm_distance self other.

(** [int(a != b)]. *)
Definition int_ne (a b : Z) : Z := if bool_decide (a ≠ b) then 1 else 0.

Definition hamming_distance (self other : Segment) : result Z :=
  xs ← numeric self;
  ys ← numeric other;
  Ok (py_sum ((fun '(a, b) => int_ne a b) <$> zip xs ys)).

Definition norm_hamming_distance (self other : Segment) : result Qc :=
  d ← hamming_distance self other;
  truediv d (length (names self)).

(** *** Conformance and the wording of the specification *)

(** A segment is conformant when every schema name has a stored value. *)
Definition conformant (s : Segment) : Prop :=
  ∀ n, n ∈ names s → is_Some (data s !! n).

(** Every schema name has a stored value among -1, 0 and +1. *)
Definition ternary (s : Segment) : Prop :=
  ∀ n, n ∈ names s → ∃ v, data s !! n = Some v ∧ (v = -1 ∨ v = 0 ∨ v = 1).

(** The sum of [f i] over the positions [0 .. n-1], as the specification
    words the metrics ("the sum over schema positions"). *)
Definition position_sum (n : nat) (f : nat → Z) : Z :=
  foldr (fun i acc => f i + acc) 0 (seq 0 n).

(** The part of a mapping whose keys are schema names. *)
Definition schema_part (s : Segment) (m : gmap string Z) : gmap string Z :=
  filter (fun kv => kv.1 ∈ names s) m.

(** Two segments are indistinguishable through the projections: vector,
    symbols, iteration, pairs, rendering, and the four metrics in either
    argument position. *)
Definition same_observables (s t : Segment) : Prop :=
  numeric s = numeric t ∧ string_ s = string_ t ∧ __iter__ s = __iter__ t ∧
  items s = items t ∧ iteritems s = iteritems t ∧ __repr__ s = __repr__ t ∧
  ∀ o : Segment,
    (distance s o = distance t o ∧ distance o s = distance o t) ∧
    (norm_distance s o = norm_distance t o ∧
     norm_distance o s = norm_distance o t) ∧
    (hamming_distance s o = hamming_distance t o ∧
     hamming_distance o s = hamming_distance o t) ∧
    (norm_hamming_distance s o = norm_hamming_distance t o ∧
     norm_hamming_distance o s = norm_hamming_distance o t).

(** Example segments over the schema [voice, nasal, round]. *)
Definition example_names : list string := ["voice"; "nasal"; "round"].

Definition example_a : Segment :=
  mkSegment example_names {[ "voice" := 1; "nasal" := -1; "round" := 0 ]}.

Definition example_b : Segment :=
  mkSegment example_names {[ "voice" := 1; "nasal" := 1; "round" := 0 ]}.

(** The value stored for a name, 0 standing in where there is none. *)
Definition stored (s : Segment) (n : string) : Z := default 0 (data s !! n).

(** The symbol of a ternary value. *)
Definition symbol (v : Z) : string :=
  if bool_decide (v = -1) then "-" else if bool_decide (v = 0) then "0" else "+".

(** A segment over a shorter schema. *)
Definition example_short : Segment :=
  mkSegment ["voice"; "nasal"] {[ "voice" := -1; "nasal" := -1 ]}.

(** Membership and non-membership in a literal list of names. *)
Ltac solve_names :=
  cbn;
  repeat first
    [ apply list_elem_of_here
    | apply list_elem_of_further
    | apply not_elem_of_nil
    | apply not_elem_of_cons; split; [discriminate|] ].

(** A call that returns. *)
Definition is_ok {A : Type} (r : result A) : Prop := ∃ a, r = Ok a.

(** *** [update] given a [Segment]

    The docstring of [update] names a [Segment] as its argument.  Given an
    object that has no [keys] method, [dict.update] iterates it and takes
    every element as a (key, value) sequence of length 2, storing the pairs
    as it goes.  Iterating a segment yields its names (line 52), and a
    string is the sequence of its characters, so a name of two characters
    is stored as first character to second character, and a name of any
    other length raises [ValueError] with the pairs taken before it left in
    place.  The values stored this way are strings, so the store of this
    call holds integers and strings.

    A string of this development is the UTF-8 encoding of the text: a
    character is a byte that is not a continuation byte (10xxxxxx) together
    with the continuation bytes that follow it. *)

Inductive pyvalue : Type :=
| VInt (z : Z)
| VStr (s : string).

Definition update_seq_error (i n : nat) : exn :=
  ValueError ("dictionary update sequence element #" ++ pretty i
              ++ " has length " ++ pretty n ++ "; 2 is required").

Definition is_continuation (c : ascii) : bool :=
  (128 <=? N_of_ascii c)%N && (N_of_ascii c <? 192)%N.

(** The characters of a string, each as a string of its own. *)
Fixpoint code_points (s : string) : list string :=
  match s with
  | "" => []
  | String c s' =>
    match code_points s' with
    | String c' t :: rest =>
      if is_continuation c' then String c (String c' t) :: rest
      else String c "" :: String c' t :: rest
    | rest => String c "" :: rest
    end
  end.

Fixpoint merge_from_seq2 (d : gmap string pyvalue) (i : nat)
    (elems : list string) : result unit * gmap string pyvalue :=
  match elems with
  | [] => (Ok (), d)
  | e :: elems' =>
    match code_points e with
    | [k; v] => merge_from_seq2 (<[k := VStr v]> d) (S i) elems'
    | cs => (Err (update_seq_error i (List.length cs)), d)
    end
  end.

(** [self.data.update(segment)] for a [Segment] argument. *)
Definition update_segment (self segment : Segment)
  : result unit * gmap string pyvalue :=
  merge_from_seq2 (VInt <$> data self) 0 (__iter__ segment).

(** A segment whose schema has two-character names only. *)
Definition example_pairs : Segment :=
  mkSegment ["hi"; "lo"] {[ "hi" := 1; "lo" := -1 ]}.

(** A segment with a name outside ASCII, and one whose name is that
    character followed by another. *)
Definition example_accent : Segment :=
  mkSegment ["é"] {[ "é" := 1 ]}.

Definition example_accent_pair : Segment :=
  mkSegment ["éx"] {[ "éx" := -1 ]}.

(** A string that is one character: a byte and continuation bytes only
    after it. *)
Fixpoint all_continuation (s : string) : bool :=
  match s with
  | "" => true
  | String c t => is_continuation c && all_continuation t
  end.

Definition one_code_point (s : string) : Prop :=
  ∃ c t, s = String c t ∧ all_continuation t = true.

(** ** Properties *)

(** *** Comprehensions *)

Section Comprehension.
Context {A B : Type}.
Implicit Types (f g : A → result B) (l : list A).

Lemma comprehension_ext f g l :
  (∀ x, x ∈ l → f x = g x) → comprehension f l = comprehension g l.
Proof.
  induction l as [|x l IH]; intros Hfg; simpl; [done|].
  rewrite (Hfg x) by left.
  rewrite IH; [done|]. intros y Hy. apply Hfg. by right.
Qed.

Lemma comprehension_total f l (h : A → B) :
  (∀ x, x ∈ l → f x = Ok (h x)) → comprehension f l = Ok (h <$> l).
Proof.
  induction l as [|x l IH]; intros Hf; simpl; [done|].
  rewrite (Hf x) by left. simpl.
  rewrite IH; [done|]. intros y Hy. apply Hf. by right.
Qed.
End Comprehension.

Lemma comprehension_fmap_ok {A B C : Type} (f : B → result C) (h : A → B)
    (k : A → C) (l : list A) :
  (∀ x, x ∈ l → f (h x) = Ok (k x)) →
  comprehension f (h <$> l) = Ok (k <$> l).
Proof.
  induction l as [|x l IH]; intros Hf; [done|].
  rewrite !fmap_cons. cbn [comprehension].
  rewrite (Hf x) by left.
  rewrite IH; [done|]. intros y Hy. apply Hf. by right.
Qed.

(** *** Sums over zipped vectors *)

Lemma foldl_add_shift (l : list Z) (a : Z) :
  foldl Z.add a l = a + foldl Z.add 0 l.
Proof.
  revert a. induction l as [|x l IH]; intros a; simpl; [lia|].
  rewrite (IH (a + x)), (IH (0 + x)). lia.
Qed.

Lemma py_sum_cons (x : Z) (l : list Z) : py_sum (x :: l) = x + py_sum l.
Proof. unfold py_sum. simpl. apply foldl_add_shift. Qed.

Lemma position_sum_S (n : nat) (f : nat → Z) :
  position_sum (S n) f = f 0%nat + position_sum n (fun i => f (S i)).
Proof.
  unfold position_sum. simpl. f_equal.
  rewrite <- seq_shift.
  induction (seq 0 n) as [|i l IH]; simpl; [done|]. by rewrite IH.
Qed.

Lemma py_sum_zip_positions (f : Z → Z → Z) (xs ys : list Z) :
  py_sum ((fun '(a, b) => f a b) <$> zip xs ys)
  = position_sum (min (length xs) (length ys))
                 (fun i => f (nth i xs 0) (nth i ys 0)).
Proof.
  revert ys. induction xs as [|x xs IH]; intros [|y ys]; simpl; try done.
  rewrite position_sum_S, py_sum_cons. simpl. f_equal. apply IH.
Qed.

(** *** The numeric vector of a conformant segment *)

Lemma numeric_conformant (s : Segment) :
  conformant s → numeric s = Ok (stored s <$> names s).
Proof.
  intros Hs. apply comprehension_total. intros n Hn.
  destruct (Hs n Hn) as [v Hv]. unfold subscript, stored. by rewrite Hv.
Qed.

Lemma distance_conformant (a b : Segment) :
  conformant a → conformant b →
  distance a b
  = Ok (position_sum (min (length (names a)) (length (names b)))
          (fun i => Z.abs (nth i (stored a <$> names a) 0
                           - nth i (stored b <$> names b) 0))).
Proof.
  intros Ha Hb. unfold distance.
  rewrite (numeric_conformant a Ha), (numeric_conformant b Hb). cbn.
  rewrite (py_sum_zip_positions (fun x y => Z.abs (x - y))).
  by rewrite !length_fmap.
Qed.

Lemma hamming_conformant (a b : Segment) :
  conformant a → conformant b →
  hamming_distance a b
  = Ok (position_sum (min (length (names a)) (length (names b)))
          (fun i => int_ne (nth i (stored a <$> names a) 0)
                           (nth i (stored b <$> names b) 0))).
Proof.
  intros Ha Hb. unfold hamming_distance.
  rewrite (numeric_conformant a Ha), (numeric_conformant b Hb). cbn.
  rewrite (py_sum_zip_positions int_ne).
  by rewrite !length_fmap.
Qed.

(** *** True division *)

Section TrueDivision.
Local Open Scope Z_scope.

Lemma truediv_zero (a : Z) : truediv a 0 = Err ZeroDivisionError.
Proof. reflexivity. Qed.

Lemma truediv_0_l (n : nat) : n ≠ 0%nat → truediv 0 n = Ok 0%Qc.
Proof. intros Hn. unfold truediv. by rewrite bool_decide_eq_false_2. Qed.



Lemma Z2Qc_le (x y : Z) : x ≤ y → (Z2Qc x <= Z2Qc y)%Qc.
Proof.
  intros Hxy. unfold Qcle, Z2Qc. simpl. rewrite !Qred_correct.
  by rewrite <- Zle_Qle.
Qed.

(** Rounding to the nearest integer stays within integer bounds. *)
Lemma round_half_even_bounds (num den B : Z) :
  0 ≤ num → 0 < den → num ≤ B * den →
  0 ≤ round_half_even num den ≤ B.
Proof.
  intros Hnum Hden HB. unfold round_half_even.
  pose proof (Z.div_mod num den ltac:(lia)) as Hdm.
  pose proof (Z.mod_pos_bound num den Hden) as Hrem.
  pose proof (Z.div_pos num den Hnum Hden) as Hfl.
  set (fl := num / den) in *. set (rem := num mod den) in *.
  assert (Hle : fl ≤ B) by nia.
  assert (Hlt : fl = B → rem = 0) by nia.
  destruct (2 * rem <? den) eqn:H1; [lia|].
  apply Z.ltb_ge in H1.
  assert (fl < B) by (destruct (decide (fl = B)) as [Heq|]; [specialize (Hlt Heq)|]; lia).
  destruct (den <? 2 * rem); [lia|]. destruct (Z.even fl); lia.
Qed.

(** The exponent of a quotient that is at most [2^j] is at most [j]. *)
Lemma floor_log2_quot_le (p q j : Z) :
  0 < p → 0 < q → 0 ≤ j → p ≤ 2 ^ j * q → floor_log2_quot p q ≤ j.
Proof.
  intros Hp Hq Hj Hpq. unfold floor_log2_quot.
  assert (Z.log2 p ≤ j + Z.log2 q).
  { rewrite <- (Z.log2_mul_pow2 q j) by lia.
    apply Z.log2_le_mono. lia. }
  destruct (if 0 <=? _ then _ else _); lia.
Qed.

(** A quotient between 0 and [2^j], for [j] up to 1023, is rounded to a
    double between 0 and [2^j]: the division returns. *)
Lemma truediv_range (h j : Z) (n : nat) :
  n ≠ 0%nat → 0 ≤ h → 0 ≤ j ≤ 1023 → h ≤ 2 ^ j * Z.of_nat n →
  ∃ q, truediv h n = Ok q ∧ (0 <= q)%Qc ∧ (q <= Z2Qc (2 ^ j))%Qc.
Proof.
  intros Hn Hh Hj Hle. unfold truediv.
  rewrite bool_decide_eq_false_2 by done.
  case_bool_decide as Hz.
  { exists 0%Qc. split; [done|]. split; [done|].
    apply (Z2Qc_le 0). apply Z.pow_nonneg. lia. }
  rewrite Z.abs_eq by lia. rewrite Z.sgn_pos by lia.
  set (q := Z.of_nat n) in *.
  assert (Hq : 0 < q) by (unfold q; lia).
  unfold binary64_scaled.
  pose proof (floor_log2_quot_le h q j ltac:(lia) Hq ltac:(lia) Hle) as He.
  set (e := floor_log2_quot h q) in *.
  set (k := Z.max e (-1022) - 52).
  assert (Hk : -1074 ≤ k ≤ j - 52) by (unfold k; lia).
  set (r := if 0 <=? k then _ else _).
  assert (Hr : 0 ≤ r ≤ 2 ^ (j - k)).
  { unfold r. destruct (0 <=? k) eqn:Hk0.
    - apply Z.leb_le in Hk0. apply round_half_even_bounds; [lia| |].
      + apply Z.mul_pos_pos; [done|]. apply Z.pow_pos_nonneg; lia.
      + replace (2 ^ (j - k) * (q * 2 ^ k)) with (2 ^ (j - k) * 2 ^ k * q)
          by ring.
        rewrite <- Z.pow_add_r by lia. by replace (j - k + k) with j by lia.
    - apply Z.leb_gt in Hk0. apply round_half_even_bounds; [|done|].
      + apply Z.mul_nonneg_nonneg; [lia|]. apply Z.pow_nonneg. lia.
      + replace (j - k) with (j + - k) by lia.
        rewrite Z.pow_add_r by lia.
        apply (Z.mul_le_mono_nonneg_r _ _ (2 ^ (- k))) in Hle;
          [|apply Z.pow_nonneg; lia]. lia. }
  assert (Hs : 0 ≤ r * 2 ^ (k + 1074) ≤ 2 ^ j * 2 ^ 1074).
  { split.
    - apply Z.mul_nonneg_nonneg; [lia|]. apply Z.pow_nonneg. lia.
    - rewrite <- Z.pow_add_r by lia.
      replace (j + 1074) with (j - k + (k + 1074)) by lia.
      rewrite (Z.pow_add_r 2 (j - k) (k + 1074)) by lia.
      apply Z.mul_le_mono_nonneg_r; [apply Z.pow_nonneg|]; lia. }
  set (s := r * 2 ^ (k + 1074)) in *.
  assert (Hpow : 2 ^ j * 2 ^ 1074 < 2 ^ 2098).
  { rewrite <- Z.pow_add_r by lia. apply Z.pow_lt_mono_r; lia. }
  assert (Hden : 0 < 2 ^ 1074) by (apply Z.pow_pos_nonneg; lia).
  rewrite (proj2 (Z.leb_gt (2 ^ 2098) s)) by lia.
  eexists. split; [reflexivity|].
  unfold Qcle, Z2Qc. cbn [this Q2Qc]. rewrite !Qred_correct.
  unfold Qle. cbn [Qnum Qden inject_Z].
  rewrite Z2Pos.id by done. split; lia.
Qed.

(** Two results are the same rational as soon as their fractions are
    equivalent. *)
Lemma result_Qc_eq (r : result Qc) (q : Qc) :
  match r with Ok p => Qeq_bool p q | Err _ => false end = true →
  r = Ok q.
Proof.
  destruct r as [p|e]; [|discriminate].
  intros H. f_equal. apply Qc_is_canon. by apply Qeq_bool_iff.
Qed.

End TrueDivision.

(** *** Construction *)

(** The pattern of line 29 does not compile: its first group opens with the
    repetition operator [+], which has nothing before it to repeat. *)
Lemma ftstr_pattern_rejected :
  Regex.compile ftstr_pattern = Err (RegexError "nothing to repeat" 1).
Proof. vm_compute. reflexivity. Qed.

(** With the plus sign escaped the same pattern compiles, and scans a
    notation into (symbol, name) pairs as the docstring describes. *)
Example escaped_pattern_scans :
  Regex.finditer "(\+|0|-)(\w+)" "+voice, -nasal"
  = Ok [[Some "+"; Some "voice"]; [Some "-"; Some "nasal"]].
Proof. vm_compute. reflexivity. Qed.

(** The name of a token is the longest run of word characters, digits
    included: a [0] inside a run does not start a new token. *)
Example escaped_pattern_greedy_name :
  Regex.finditer "(\+|0|-)(\w+)" "+voice-nasal0round"
  = Ok [[Some "+"; Some "voice"]; [Some "-"; Some "nasal0round"]].
Proof. vm_compute. reflexivity. Qed.

(** Since [re.finditer] compiles before it scans, the constructor raises
    whatever its arguments are, the empty default [ftstr] included. *)
Lemma init_raises (names : list string) (features : gmap string Z)
    (ftstr : string) :
  __init__ names features ftstr = Err (RegexError "nothing to repeat" 1).
Proof.
  unfold __init__, Regex.finditer. by rewrite ftstr_pattern_rejected.
Qed.

(** The default-fill loop of lines 23-28 on its own gives every schema name
    the value supplied in [features], or 0. *)
Lemma fill_defaults_lookup (names : list string) (features : gmap string Z)
    (n : string) :
  n ∈ names →
  fill_defaults names features !! n = Some (default 0 (features !! n)).
Proof.
  unfold fill_defaults.
  induction names as [|x l IH] using rev_ind; intros Hn.
  - by apply elem_of_nil in Hn.
  - rewrite foldl_app. simpl.
    destruct (decide (n = x)) as [->|Hne].
    + destruct (features !! x); simpl; by rewrite lookup_insert_eq.
    + apply elem_of_app in Hn as [Hn|Hn];
        [|apply list_elem_of_singleton in Hn; done].
      destruct (features !! x); rewrite lookup_insert_ne by done; by apply IH.
Qed.

(** C1: constructing with [features = {"voice": 0}] and the notation
    ["+voice"] should store +1 for [voice]; the constructor instead raises
    the pattern compiler's error, because the pattern's plus sign is not
    escaped. *)
Theorem init_notation_raises :
  __init__ ["voice"] {[ "voice" := 0 ]} "+voice"
  = Err (RegexError "nothing to repeat" 1).
Proof. apply init_raises. Qed.

(** C2: constructing from a schema and a partial mapping alone should
    complete with every schema name readable; the constructor instead
    raises the pattern compiler's error after the default-fill loop, on the
    empty default notation too. *)
Theorem init_features_raises :
  __init__ ["voice"; "nasal"] {[ "voice" := 1 ]} ""
  = Err (RegexError "nothing to repeat" 1).
Proof. apply init_raises. Qed.

(** *** The superset test *)

(** C3: [match] (and [>=]) should tell whether every pair of [other] is
    stored in the segment; the body reads the unbound name [features]
    instead of [other], so every call raises [NameError]. *)
Theorem match_raises_NameError (self : Segment) (other : gmap string Z) :
  match_ self other = Err (NameError "features") ∧
  __ge__ self other = Err (NameError "features").
Proof. split; reflexivity. Qed.

(** *** Item assignment *)

(** C4: assigning to a name outside the schema fails with the
    unknown-feature-name [KeyError]; assigning to a schema name succeeds for
    any value, and reading the name afterwards returns that value. *)
Theorem setitem_validates (s : Segment) (k : string) (v : Z) :
  (k ∉ names s →
   (__setitem__ s k v).1 = Err (KeyError (KStr "Unknown feature name."))) ∧
  (k ∈ names s →
   (__setitem__ s k v).1 = Ok () ∧ __getitem__ (__setitem__ s k v).2 k = Ok v).
Proof.
  unfold __setitem__. split; intros Hk.
  - by rewrite bool_decide_eq_false_2.
  - rewrite bool_decide_eq_true_2 by done. split; [done|].
    unfold __getitem__, subscript. simpl. by rewrite lookup_insert_eq.
Qed.

Lemma setitem_validates_witness :
  (__setitem__ example_a "tone" 1).1
    = Err (KeyError (KStr "Unknown feature name.")) ∧
  (__setitem__ example_a "nasal" 1).1 = Ok () ∧
  __getitem__ (__setitem__ example_a "nasal" 1).2 "nasal" = Ok 1.
Proof.
  split.
  - apply (proj1 (setitem_validates example_a "tone" 1)). solve_names.
  - apply (proj2 (setitem_validates example_a "nasal" 1)). solve_names.
Defined.

(** C10: a failing item assignment raises before it stores anything: the
    segment, its [data] and its [names], is left exactly as it was. *)
Theorem setitem_failure_atomic (s : Segment) (k : string) (v : Z) :
  k ∉ names s →
  __setitem__ s k v = (Err (KeyError (KStr "Unknown feature name.")), s) ∧
  data (__setitem__ s k v).2 = data s ∧
  names (__setitem__ s k v).2 = names s.
Proof.
  intros Hk. unfold __setitem__. by rewrite bool_decide_eq_false_2.
Qed.

Lemma setitem_failure_atomic_witness :
  __setitem__ example_a "tone" 1
    = (Err (KeyError (KStr "Unknown feature name.")), example_a) ∧
  data (__setitem__ example_a "tone" 1).2 = data example_a ∧
  names (__setitem__ example_a "tone" 1).2 = names example_a.
Proof. apply (setitem_failure_atomic example_a "tone" 1). solve_names. Defined.

(** *** Intersection *)

Lemma elem_of_item_set (d : gmap string Z) (k : string) (v : Z) :
  (k, v) ∈ item_set d ↔ d !! k = Some v.
Proof.
  unfold item_set. rewrite elem_of_list_to_set. apply elem_of_map_to_list.
Qed.

(** Storing the pairs first to last is building the map from the reversed
    list, whose head is stored last. *)
Lemma dict_of_reverse (l : list (string * Z)) :
  dict_of l = list_to_map (reverse l).
Proof.
  induction l as [|[k v] l IH] using rev_ind; [done|].
  unfold dict_of in *. rewrite foldl_app, reverse_snoc. simpl. by rewrite IH.
Qed.

Lemma dict_of_lookup (l : list (string * Z)) (k : string) (v : Z) :
  (∀ v1 v2, (k, v1) ∈ l → (k, v2) ∈ l → v1 = v2) →
  dict_of l !! k = Some v ↔ (k, v) ∈ l.
Proof.
  intros Hfun. rewrite dict_of_reverse.
  rewrite <- elem_of_list_to_map'; [apply elem_of_reverse|].
  intros v'. rewrite !elem_of_reverse. apply Hfun.
Qed.

Lemma intersection_lookup (a b : Segment) (k : string) (v : Z) :
  intersection a b !! k = Some v ↔ data a !! k = Some v ∧ data b !! k = Some v.
Proof.
  unfold intersection. rewrite dict_of_lookup.
  - by rewrite elem_of_elements, elem_of_intersection, !elem_of_item_set.
  - intros v1 v2.
    rewrite !elem_of_elements, !elem_of_intersection, !elem_of_item_set.
    intros [H1 _] [H2 _]. congruence.
Qed.

(** C5: [intersection] (and [&]) returns exactly the pairs stored with the
    same name and the same value in both segments; a name stored in both
    with different values is absent from the result, as in the example
    where the differing [nasal] pair is dropped. *)
Theorem intersection_identical_pairs (a b : Segment) :
  (∀ k v, intersection a b !! k = Some v
          ↔ data a !! k = Some v ∧ data b !! k = Some v) ∧
  (∀ k va vb, data a !! k = Some va → data b !! k = Some vb → va ≠ vb →
              intersection a b !! k = None) ∧
  __and__ a b = intersection a b ∧
  (∀ na nb,
     intersection
       (mkSegment na {[ "voice" := 1; "nasal" := -1; "round" := 0 ]})
       (mkSegment nb {[ "voice" := 1; "nasal" := 1; "round" := 0 ]})
     = {[ "voice" := 1; "round" := 0 ]}).
Proof.
  split; [|split; [|split]].
  - apply intersection_lookup.
  - intros k va vb Ha Hb Hne.
    destruct (intersection a b !! k) as [v|] eqn:Hv; [|done].
    apply intersection_lookup in Hv as [Ha' Hb']. congruence.
  - reflexivity.
  - intros na nb. vm_compute. reflexivity.
Qed.

Lemma intersection_identical_pairs_witness :
  intersection example_a example_b !! "nasal" = None.
Proof.
  apply (proj1 (proj2 (intersection_identical_pairs example_a example_b))
           "nasal" (-1) 1); [reflexivity | reflexivity | discriminate].
Defined.

(** *** Symbols and numbers *)

Lemma symbol_tables (v : Z) :
  v = -1 ∨ v = 0 ∨ v = 1 →
  subscript_int n2s v = Ok (symbol v) ∧ subscript s2n (symbol v) = Ok v.
Proof. intros [->|[->| ->]]; split; vm_compute; reflexivity. Qed.

Lemma ternary_conformant (s : Segment) : ternary s → conformant s.
Proof. intros Hs n Hn. destruct (Hs n Hn) as (v & Hv & _). by exists v. Qed.

Lemma ternary_stored (s : Segment) (n : string) :
  ternary s → n ∈ names s → stored s n = -1 ∨ stored s n = 0 ∨ stored s n = 1.
Proof.
  intros Hs Hn. destruct (Hs n Hn) as (v & Hv & Hr).
  unfold stored. by rewrite Hv.
Qed.

(** C8: when the stored values of the schema names are all among -1, 0 and
    +1, decoding the elements of [string()] through the symbol-to-number
    table gives back [numeric()], element for element in schema order. *)
Theorem string_roundtrip (s : Segment) :
  ternary s →
  ∃ xs syms,
    numeric s = Ok xs ∧ string_ s = Ok syms ∧
    length syms = length (names s) ∧
    comprehension (subscript s2n) syms = Ok xs.
Proof.
  intros Hs.
  exists (stored s <$> names s), ((fun n => symbol (stored s n)) <$> names s).
  pose proof (numeric_conformant s (ternary_conformant s Hs)) as Hnum.
  split; [done|]. split; [|split].
  - unfold string_. rewrite Hnum. cbn.
    apply comprehension_fmap_ok. intros n Hn.
    apply symbol_tables. by apply ternary_stored.
  - by rewrite length_fmap.
  - apply (comprehension_fmap_ok _ (fun n => symbol (stored s n))).
    intros n Hn. apply symbol_tables. by apply ternary_stored.
Qed.

Lemma example_a_ternary : ternary example_a.
Proof.
  intros n Hn. cbn in Hn.
  apply elem_of_cons in Hn as [->|Hn]; [exists 1; split; [reflexivity|lia]|].
  apply elem_of_cons in Hn as [->|Hn]; [exists (-1); split; [reflexivity|lia]|].
  apply list_elem_of_singleton in Hn as ->. exists 0; split; [reflexivity|lia].
Defined.

Lemma string_roundtrip_witness :
  ∃ xs syms,
    numeric example_a = Ok xs ∧ string_ example_a = Ok syms ∧
    length syms = length (names example_a) ∧
    comprehension (subscript s2n) syms = Ok xs.
Proof. apply (string_roundtrip example_a). apply example_a_ternary. Defined.

(** *** Distances *)

Lemma example_b_conformant : conformant example_b.
Proof.
  intros n Hn. cbn in Hn.
  repeat (apply elem_of_cons in Hn as [->|Hn]; [by eexists|]).
  by apply elem_of_nil in Hn.
Defined.

Lemma example_short_conformant : conformant example_short.
Proof.
  intros n Hn. cbn in Hn.
  repeat (apply elem_of_cons in Hn as [->|Hn]; [by eexists|]).
  by apply elem_of_nil in Hn.
Defined.



(** On the example pair the distance is 2 and the normalised distance is
    the double nearest to two thirds, 6004799503160661 / 2^53. *)
Example norm_distance_example :
  distance example_a example_b = Ok 2 ∧
  norm_distance example_a example_b
  = Ok (Q2Qc (6004799503160661 # 9007199254740992)).
Proof.
  split; [vm_compute; reflexivity|].
  apply result_Qc_eq. vm_compute. reflexivity.
Qed.

(** The quotient is rounded: 15 / 22 times 22 is not 15. *)
Example truediv_rounds :
  truediv 15 22 = Ok (Q2Qc (6141272219141585 # 9007199254740992)) ∧
  (Q2Qc (6141272219141585 # 9007199254740992) * Z2Qc 22 ≠ Z2Qc 15)%Qc.
Proof.
  split; [apply result_Qc_eq; vm_compute; reflexivity|].
  intros H. apply (f_equal this) in H. vm_compute in H. discriminate H.
Qed.

(** A quotient beyond the range of the doubles raises. *)
Example truediv_overflows : truediv (10 ^ 400) 2 = Err OverflowError.
Proof. vm_compute. reflexivity. Qed.

(** C7: for conformant segments whose schemas differ in length, [distance]
    and [hamming_distance] return without raising: the sum, respectively
    the count, runs over the first [min(len_a, len_b)] positions only, so
    the trailing values of the longer vector play no part. *)
Theorem distance_truncates (a b : Segment) :
  conformant a → conformant b → length (names a) ≠ length (names b) →
  ∃ xs ys : list Z,
    numeric a = Ok xs ∧ length xs = length (names a) ∧
    numeric b = Ok ys ∧ length ys = length (names b) ∧
    distance a b
    = Ok (position_sum (min (length (names a)) (length (names b)))
            (fun i => Z.abs (nth i xs 0 - nth i ys 0))) ∧
    hamming_distance a b
    = Ok (position_sum (min (length (names a)) (length (names b)))
            (fun i => int_ne (nth i xs 0) (nth i ys 0))).
Proof.
  intros Ha Hb _.
  exists (stored a <$> names a), (stored b <$> names b).
  rewrite !length_fmap.
  split; [by apply numeric_conformant|]. split; [done|].
  split; [by apply numeric_conformant|]. split; [done|].
  split; [by apply distance_conformant | by apply hamming_conformant].
Qed.

Lemma distance_truncates_witness :
  ∃ xs ys : list Z,
    numeric example_a = Ok xs ∧ length xs = length (names example_a) ∧
    numeric example_short = Ok ys ∧ length ys = length (names example_short) ∧
    distance example_a example_short
    = Ok (position_sum
            (min (length (names example_a)) (length (names example_short)))
            (fun i => Z.abs (nth i xs 0 - nth i ys 0))) ∧
    hamming_distance example_a example_short
    = Ok (position_sum
            (min (length (names example_a)) (length (names example_short)))
            (fun i => int_ne (nth i xs 0) (nth i ys 0))).
Proof.
  apply (distance_truncates example_a example_short).
  - apply ternary_conformant, example_a_ternary.
  - apply example_short_conformant.
  - cbn. lia.
Defined.

(** Against the shorter segment only [voice] and [nasal] are compared. *)
Example distance_truncates_example :
  distance example_a example_short = Ok 2 ∧
  hamming_distance example_a example_short = Ok 1.
Proof. split; vm_compute; reflexivity. Qed.

(** *** Conformance is kept by the two mutators *)

Lemma setitem_conformant (s : Segment) (k : string) (v : Z) :
  conformant s → conformant (__setitem__ s k v).2.
Proof.
  intros Hs n. unfold __setitem__. case_bool_decide; simpl; [|apply Hs].
  intros Hn. destruct (decide (k = n)) as [->|Hne].
  - rewrite lookup_insert_eq. by eexists.
  - rewrite lookup_insert_ne by done. by apply Hs.
Qed.

Lemma update_conformant (s : Segment) (m : gmap string Z) :
  conformant s → conformant (update s m).2.
Proof.
  intros Hs n Hn. simpl in *. rewrite lookup_union.
  destruct (Hs n Hn) as [v Hv]. rewrite Hv.
  destruct (m !! n); by eexists.
Qed.

(** *** Projection through the schema *)

(** Every projection reads [data] at the schema names only. *)
Lemma observables_schema_only (s t : Segment) :
  names s = names t →
  (∀ n, n ∈ names s → data s !! n = data t !! n) →
  same_observables s t.
Proof.
  intros Hnames Hdata.
  assert (Hsub : ∀ n, n ∈ names s →
                      subscript (data s) n = subscript (data t) n).
  { intros n Hn. unfold subscript. by rewrite (Hdata n Hn). }
  assert (Hnum : numeric s = numeric t).
  { unfold numeric. rewrite <- Hnames. by apply comprehension_ext. }
  assert (Hitems : items s = items t).
  { unfold items. rewrite <- Hnames. apply comprehension_ext.
    intros n Hn. by rewrite (Hsub n Hn). }
  unfold same_observables.
  split; [done|]. split; [unfold string_; by rewrite Hnum|].
  split; [done|]. split; [done|]. split; [exact Hitems|]. split.
  { unfold __repr__. rewrite <- Hnames.
    erewrite comprehension_ext; [reflexivity|].
    intros n Hn. simpl. by rewrite (Hsub n Hn). }
  intros o.
  unfold norm_distance, norm_hamming_distance, distance, hamming_distance.
  by rewrite Hnum, Hnames.
Qed.

(** C9: [update] stores every pair of its argument as it is, names outside
    the schema included, and keeps the schema; yet the vector, the symbols,
    iteration, the pairs, the rendering and the four metrics of the updated
    segment are those of any segment with the same schema and the same
    values at the schema names, so they are what they would be had the
    extra keys been left out, and unchanged when only extra keys are
    given. *)
Theorem update_extra_keys_invisible (s : Segment) (m : gmap string Z) :
  (update s m).1 = Ok () ∧
  names (update s m).2 = names s ∧
  (∀ k v, m !! k = Some v → data (update s m).2 !! k = Some v) ∧
  (∀ k, m !! k = None → data (update s m).2 !! k = data s !! k) ∧
  (∀ t, names t = names s →
        (∀ n, n ∈ names s → data (update s m).2 !! n = data t !! n) →
        same_observables (update s m).2 t) ∧
  same_observables (update s m).2 (update s (schema_part s m)).2 ∧
  ((∀ k, k ∈ names s → m !! k = None) → same_observables (update s m).2 s).
Proof.
  split; [done|]. split; [done|]. split.
  { intros k v Hk. simpl. by apply lookup_union_Some_l. }
  split.
  { intros k Hk. simpl. by apply lookup_union_r. }
  split.
  { intros t Hn Hd. by apply observables_schema_only. }
  split.
  - apply observables_schema_only; [done|].
    intros n Hn. simpl in *. rewrite !lookup_union.
    unfold schema_part. rewrite map_lookup_filter.
    destruct (m !! n) as [v|]; simpl; [|done].
    by rewrite option_guard_True.
  - intros Hextra. apply observables_schema_only; [done|].
    intros n Hn. simpl in *. apply lookup_union_r. by apply Hextra.
Qed.

Lemma update_extra_keys_invisible_witness :
  data (update example_a {[ "tone" := 5 ]}).2 !! "tone" = Some 5 ∧
  same_observables (update example_a {[ "tone" := 5 ]}).2 example_a.
Proof.
  pose proof (update_extra_keys_invisible example_a {[ "tone" := 5 ]})
    as (_ & _ & Hstored & _ & _ & _ & Hsame).
  split.
  - apply Hstored. reflexivity.
  - apply Hsame. intros k Hk. apply lookup_singleton_ne.
    intros <-. revert Hk. solve_names.
Defined.


(** ** Further properties of the class *)

(** *** Comprehensions that return or raise *)

Lemma comprehension_ok_inv {A B : Type} (f : A → result B) (l : list A)
    (ys : list B) :
  comprehension f l = Ok ys → ∀ x, x ∈ l → is_ok (f x).
Proof.
  revert ys. induction l as [|x l IH]; intros ys Hc y Hy.
  - by apply elem_of_nil in Hy.
  - simpl in Hc. destruct (f x) as [b|e] eqn:Hfx; [|done]. simpl in Hc.
    destruct (comprehension f l) as [bs|e] eqn:Hl; [|done].
    apply elem_of_cons in Hy as [->|Hy]; [by exists b|by eapply IH].
Qed.

(** The first element on which the body raises decides the outcome. *)
Lemma comprehension_first_error {A B : Type} (f : A → result B)
    (l1 l2 : list A) (x : A) (e : exn) :
  (∀ y, y ∈ l1 → is_ok (f y)) → f x = Err e →
  comprehension f (l1 ++ x :: l2) = Err e.
Proof.
  intros Hl1 Hx. induction l1 as [|y l1 IH]; simpl.
  - by rewrite Hx.
  - destruct (Hl1 y) as [b Hb]; [by left|]. rewrite Hb. simpl.
    rewrite IH; [done|]. intros z Hz. apply Hl1. by right.
Qed.

(** When every element either passes or raises the same exception, and
    one raises, that exception is the outcome. *)
Lemma comprehension_same_error {A B : Type} (f : A → result B) (l : list A)
    (e : exn) :
  (∀ y, y ∈ l → is_ok (f y) ∨ f y = Err e) →
  (∃ x, x ∈ l ∧ f x = Err e) →
  comprehension f l = Err e.
Proof.
  induction l as [|y l IH]; intros Hall (x & Hx & Hfx).
  - by apply elem_of_nil in Hx.
  - simpl. destruct (Hall y) as [[b Hb]|He]; [by left| |by rewrite He].
    rewrite Hb. simpl.
    apply elem_of_cons in Hx as [->|Hx]; [congruence|].
    rewrite IH; [done| |by exists x].
    intros z Hz. apply Hall. by right.
Qed.

(** *** The symbol table *)

Lemma n2s_lookup_ternary (v : Z) (c : string) :
  n2s !! v = Some c → v = -1 ∨ v = 0 ∨ v = 1.
Proof.
  unfold n2s. intros H.
  destruct (decide (v = -1)) as [|H1]; [by left|].
  destruct (decide (v = 0)) as [|H2]; [by right; left|].
  destruct (decide (v = 1)) as [|H3]; [by right; right|].
  rewrite !lookup_insert_ne, lookup_singleton_ne in H by done. done.
Qed.

Lemma n2s_lookup_other (v : Z) :
  ¬ (v = -1 ∨ v = 0 ∨ v = 1) → subscript_int n2s v = Err (KeyError (KInt v)).
Proof.
  intros Hv. unfold subscript_int.
  destruct (n2s !! v) as [c|] eqn:Hc; [|done].
  destruct Hv. by eapply n2s_lookup_ternary.
Qed.

(** *** When the projections return *)

Lemma numeric_ok_conformant (s : Segment) (xs : list Z) :
  numeric s = Ok xs → conformant s.
Proof.
  intros Hn n Hin.
  destruct (comprehension_ok_inv _ _ _ Hn n Hin) as [v Hv].
  unfold subscript in Hv. destruct (data s !! n); [by eexists|done].
Qed.

Lemma string_ternary (s : Segment) :
  ternary s →
  string_ s = Ok ((fun n => symbol (stored s n)) <$> names s).
Proof.
  intros Hs. unfold string_.
  rewrite (numeric_conformant s (ternary_conformant s Hs)). cbn.
  apply comprehension_fmap_ok. intros n Hn.
  apply symbol_tables. by apply ternary_stored.
Qed.

Lemma string_ok_ternary (s : Segment) (syms : list string) :
  string_ s = Ok syms → ternary s.
Proof.
  unfold string_. intros Hstr.
  destruct (numeric s) as [xs|e] eqn:Hnum; [|done]. cbn in Hstr.
  pose proof (numeric_ok_conformant s xs Hnum) as Hc.
  rewrite (numeric_conformant s Hc) in Hnum. injection Hnum as <-.
  intros n Hn. destruct (Hc n Hn) as [v Hv]. exists v. split; [done|].
  destruct (comprehension_ok_inv _ _ _ Hstr (stored s n)) as [c Hcv].
  { apply list_elem_of_fmap. by exists n. }
  unfold stored in Hcv. rewrite Hv in Hcv. simpl in Hcv.
  unfold subscript_int in Hcv.
  destruct (n2s !! v) as [c'|] eqn:Hl; [|done]. by eapply n2s_lookup_ternary.
Qed.

Lemma repr_ternary (s : Segment) :
  ternary s →
  __repr__ s
  = Ok ("[" ++ join ", " ((fun n => symbol (stored s n) ++ n) <$> names s)
        ++ "]").
Proof.
  intros Hs. unfold __repr__.
  rewrite (comprehension_total _ _ (fun n => (symbol (stored s n), n))).
  - cbn. by rewrite <- list_fmap_compose.
  - intros n Hn. destruct (Hs n Hn) as (v & Hv & Hr).
    unfold subscript, stored. rewrite Hv. cbn.
    by rewrite (proj1 (symbol_tables v Hr)).
Qed.

Lemma repr_ok_ternary (s : Segment) (txt : string) :
  __repr__ s = Ok txt → ternary s.
Proof.
  unfold __repr__. intros Hr.
  destruct (comprehension _ (names s)) as [ps|e] eqn:Hc; [|done].
  intros n Hn. destruct (comprehension_ok_inv _ _ _ Hc n Hn) as [p Hp].
  unfold subscript in Hp. destruct (data s !! n) as [v|]; [|done].
  exists v. split; [done|]. cbn in Hp. unfold subscript_int in Hp.
  destruct (n2s !! v) as [c|] eqn:Hl; [|done]. by eapply n2s_lookup_ternary.
Qed.

Lemma items_of_numeric (d : gmap string Z) (l : list string) :
  comprehension (fun k => v ← subscript d k; Ok (k, v)) l
  = match comprehension (subscript d) l with
    | Ok xs => Ok (zip l xs)
    | Err e => Err e
    end.
Proof.
  induction l as [|k l IH]; simpl; [done|].
  destruct (subscript d k) as [v|e]; simpl; [|done].
  rewrite IH. by destruct (comprehension (subscript d) l).
Qed.

(** *** Construction never returns *)

(** X1: whatever the schema, the mapping and the notation, [Segment(...)]
    raises the pattern compiler's error and returns no segment. *)
Theorem init_never_returns (names : list string) (features : gmap string Z)
    (ftstr : string) :
  ¬ is_ok (__init__ names features ftstr) ∧
  ∃ pos, __init__ names features ftstr
         = Err (RegexError "nothing to repeat" pos).
Proof.
  rewrite init_raises. split; [by intros [s Hs]|by eexists].
Qed.

(** *** The numeric vector *)

(** X2: [numeric()] returns exactly when every schema name has a stored
    value, and then it is the list of the stored values in schema order,
    one per name (a name listed twice is read twice). *)
Theorem numeric_returns_iff_conformant (s : Segment) :
  (is_ok (numeric s) ↔ conformant s) ∧
  (∀ xs, numeric s = Ok xs →
         length xs = length (names s) ∧
         ∀ i n, names s !! i = Some n → data s !! n = xs !! i).
Proof.
  split; [split|].
  - intros [xs Hxs]. by eapply numeric_ok_conformant.
  - intros Hc. eexists. by apply numeric_conformant.
  - intros xs Hxs. pose proof (numeric_ok_conformant s xs Hxs) as Hc.
    rewrite (numeric_conformant s Hc) in Hxs. injection Hxs as <-.
    split; [by rewrite length_fmap|].
    intros i n Hi. rewrite list_lookup_fmap, Hi. simpl.
    destruct (Hc n) as [v Hv]; [by eapply list_elem_of_lookup_2|].
    unfold stored. by rewrite Hv.
Qed.

Lemma numeric_returns_iff_conformant_witness :
  is_ok (numeric example_b) ∧
  ∀ xs, numeric example_b = Ok xs →
        length xs = length (names example_b) ∧
        ∀ i n, names example_b !! i = Some n → data example_b !! n = xs !! i.
Proof.
  split.
  - apply (proj1 (numeric_returns_iff_conformant example_b)).
    apply example_b_conformant.
  - apply (proj2 (numeric_returns_iff_conformant example_b)).
Defined.

(** X3: when a schema name has no stored value, [numeric()], [items()],
    [iteritems()] and the four metrics called on that segment raise
    [KeyError] for the first such name in schema order, whatever the other
    segment is. *)
Theorem numeric_first_missing_name (s : Segment) (l1 l2 : list string)
    (n : string) :
  names s = (l1 ++ n :: l2)%list →
  (∀ x, x ∈ l1 → is_Some (data s !! x)) →
  data s !! n = None →
  numeric s = Err (KeyError (KStr n)) ∧
  items s = Err (KeyError (KStr n)) ∧
  iteritems s = Err (KeyError (KStr n)) ∧
  ∀ o, distance s o = Err (KeyError (KStr n)) ∧
       norm_distance s o = Err (KeyError (KStr n)) ∧
       hamming_distance s o = Err (KeyError (KStr n)) ∧
       norm_hamming_distance s o = Err (KeyError (KStr n)).
Proof.
  intros Hnames Hl1 Hn.
  assert (Hnum : numeric s = Err (KeyError (KStr n))).
  { unfold numeric. rewrite Hnames. apply comprehension_first_error.
    - intros x Hx. destruct (Hl1 x Hx) as [v Hv]. exists v.
      unfold subscript. by rewrite Hv.
    - unfold subscript. by rewrite Hn. }
  assert (Hitems : items s = Err (KeyError (KStr n))).
  { unfold items. rewrite items_of_numeric. fold (numeric s). by rewrite Hnum. }
  split; [done|]. split; [done|]. split; [exact Hitems|].
  intros o.
  unfold norm_distance, norm_hamming_distance, distance, hamming_distance.
  by rewrite Hnum.
Qed.

Lemma numeric_first_missing_name_witness :
  numeric (mkSegment ["voice"; "tone"; "round"] (data example_a))
  = Err (KeyError (KStr "tone")).
Proof.
  apply (numeric_first_missing_name _ ["voice"] ["round"] "tone").
  - reflexivity.
  - intros x Hx. apply list_elem_of_singleton in Hx as ->. by eexists.
  - reflexivity.
Defined.

(** X6: [items()] pairs the schema names with the values of [numeric()]
    position by position, fails with the same exception when [numeric()]
    fails, and [iteritems()] yields the same pairs. *)
Theorem items_zip_numeric (s : Segment) :
  items s = match numeric s with
            | Ok xs => Ok (zip (names s) xs)
            | Err e => Err e
            end ∧
  iteritems s = items s.
Proof. split; [apply items_of_numeric|reflexivity]. Qed.

(** *** Rendering *)

(** X4: [string()] and [repr] return exactly when every schema name has a
    stored value among -1, 0 and +1; any other stored value of a schema
    name makes both raise. *)
Theorem rendering_returns_iff_ternary (s : Segment) :
  (is_ok (string_ s) ↔ ternary s) ∧ (is_ok (__repr__ s) ↔ ternary s).
Proof.
  split; split.
  - intros [syms H]. by eapply string_ok_ternary.
  - intros H. eexists. by apply string_ternary.
  - intros [txt H]. by eapply repr_ok_ternary.
  - intros H. eexists. by apply repr_ternary.
Qed.

Lemma rendering_returns_iff_ternary_witness :
  is_ok (string_ example_a) ∧ is_ok (__repr__ example_a).
Proof.
  split.
  - apply (proj1 (rendering_returns_iff_ternary example_a)).
    apply example_a_ternary.
  - apply (proj2 (rendering_returns_iff_ternary example_a)).
    apply example_a_ternary.
Defined.

(** X7: when [string()] returns the symbols [syms], [repr] is the
    bracketed, comma-separated list of each symbol followed by its name, in
    schema order. *)
Theorem repr_from_symbols (s : Segment) (syms : list string) :
  string_ s = Ok syms →
  __repr__ s
  = Ok ("[" ++ join ", " (zip_with String.append syms (names s)) ++ "]").
Proof.
  intros Hstr. pose proof (string_ok_ternary s syms Hstr) as Ht.
  rewrite (string_ternary s Ht) in Hstr. injection Hstr as <-.
  rewrite (repr_ternary s Ht). do 3 f_equal.
  by rewrite zip_with_fmap_l, zip_with_diag.
Qed.

Lemma repr_from_symbols_witness :
  __repr__ example_a
  = Ok ("[" ++ join ", " (zip_with String.append ["+"; "-"; "0"]
                            (names example_a)) ++ "]").
Proof. apply (repr_from_symbols example_a ["+"; "-"; "0"]). reflexivity. Defined.

(** The rendering of the example segment. *)
Example repr_example : __repr__ example_a = Ok "[+voice, -nasal, 0round]".
Proof. vm_compute. reflexivity. Qed.

Lemma stored_insert (s : Segment) (k n : string) (v : Z) :
  stored (mkSegment (names s) (<[k := v]> (data s))) n
  = if decide (k = n) then v else stored s n.
Proof.
  unfold stored. simpl. case_decide as Hk.
  - subst. by rewrite lookup_insert_eq.
  - by rewrite lookup_insert_ne.
Qed.

(** X5: item assignment does not check the value.  Storing a value other
    than -1, 0, +1 for a schema name of a ternary segment succeeds and
    [numeric()] still returns, but [string()] and [repr] then raise
    [KeyError] carrying that value. *)
Theorem setitem_nonternary_breaks_rendering (s : Segment) (k : string)
    (v : Z) :
  ternary s → k ∈ names s → ¬ (v = -1 ∨ v = 0 ∨ v = 1) →
  (__setitem__ s k v).1 = Ok () ∧
  is_ok (numeric (__setitem__ s k v).2) ∧
  string_ (__setitem__ s k v).2 = Err (KeyError (KInt v)) ∧
  __repr__ (__setitem__ s k v).2 = Err (KeyError (KInt v)).
Proof.
  intros Ht Hk Hv.
  pose proof (setitem_conformant s k v (ternary_conformant s Ht)) as Hc.
  revert Hc. unfold __setitem__. rewrite bool_decide_eq_true_2 by done.
  cbn [fst snd]. intros Hc.
  split; [done|]. split; [eexists; by apply numeric_conformant|]. split.
  - unfold string_. rewrite (numeric_conformant _ Hc). cbn.
    apply comprehension_same_error.
    + intros y Hy. apply list_elem_of_fmap in Hy as (n & -> & Hn).
      rewrite stored_insert. case_decide.
      * right. by apply n2s_lookup_other.
      * left. eexists. apply symbol_tables. by apply ternary_stored.
    + exists v. split; [|by apply n2s_lookup_other].
      apply list_elem_of_fmap. exists k. split; [|done].
      rewrite stored_insert. by rewrite decide_True.
  - unfold __repr__.
    rewrite (comprehension_same_error _ _ (KeyError (KInt v))); [done| |].
    + intros n Hn. cbn. unfold subscript.
      destruct (decide (k = n)) as [->|Hne].
      * right. rewrite lookup_insert_eq. cbn.
        by rewrite (n2s_lookup_other v Hv).
      * left. rewrite lookup_insert_ne by done.
        destruct (Ht n Hn) as (w & Hw & Hr). rewrite Hw. cbn.
        rewrite (proj1 (symbol_tables w Hr)). by eexists.
    + exists k. split; [done|]. cbn. unfold subscript.
      rewrite lookup_insert_eq. cbn. by rewrite (n2s_lookup_other v Hv).
Qed.

Lemma setitem_nonternary_breaks_rendering_witness :
  (__setitem__ example_a "nasal" 2).1 = Ok () ∧
  is_ok (numeric (__setitem__ example_a "nasal" 2).2) ∧
  string_ (__setitem__ example_a "nasal" 2).2 = Err (KeyError (KInt 2)) ∧
  __repr__ (__setitem__ example_a "nasal" 2).2 = Err (KeyError (KInt 2)).
Proof.
  apply (setitem_nonternary_breaks_rendering example_a "nasal" 2).
  - apply example_a_ternary.
  - solve_names.
  - lia.
Defined.

(** *** Item assignment and [update] as store operations *)

(** X8: an item assignment, successful or not, leaves the value read for
    every other name as it was; a second assignment to the same name
    replaces the first; assignments to different names can be made in
    either order. *)
Theorem setitem_frame_overwrite (s : Segment) (k : string) (v : Z) :
  (∀ k', k ≠ k' →
         __getitem__ (__setitem__ s k v).2 k' = __getitem__ s k') ∧
  (∀ v', (__setitem__ (__setitem__ s k v).2 k v').2
         = (__setitem__ s k v').2) ∧
  (∀ k' v', k ≠ k' →
            (__setitem__ (__setitem__ s k v).2 k' v').2
            = (__setitem__ (__setitem__ s k' v').2 k v).2).
Proof.
  unfold __setitem__, __getitem__, subscript.
  split; [|split].
  - intros k' Hne. case_bool_decide; simpl; [|done].
    by rewrite lookup_insert_ne.
  - intros v'. destruct (bool_decide (k ∈ names s)) eqn:Hk; simpl;
      rewrite Hk; simpl; [|done].
    by rewrite insert_insert_eq.
  - intros k' v' Hne.
    destruct (bool_decide (k ∈ names s)) eqn:Hk;
      destruct (bool_decide (k' ∈ names s)) eqn:Hk'; simpl;
      rewrite ?Hk, ?Hk'; simpl; try done.
    by rewrite insert_insert_ne.
Qed.

Lemma setitem_frame_overwrite_witness :
  __getitem__ (__setitem__ example_a "voice" (-1)).2 "nasal"
  = __getitem__ example_a "nasal".
Proof.
  apply (proj1 (setitem_frame_overwrite example_a "voice" (-1))).
  discriminate.
Defined.

(** X9: for a schema name, item assignment is the [update] with the
    one-pair mapping: same outcome, same resulting segment. *)
Theorem setitem_as_update (s : Segment) (k : string) (v : Z) :
  k ∈ names s → __setitem__ s k v = update s {[ k := v ]}.
Proof.
  intros Hk. unfold __setitem__, update.
  rewrite bool_decide_eq_true_2 by done.
  by rewrite insert_union_singleton_l.
Qed.

Lemma setitem_as_update_witness :
  __setitem__ example_a "round" 1 = update example_a {[ "round" := 1 ]}.
Proof. apply (setitem_as_update example_a "round" 1). solve_names. Defined.

(** X10: two updates in a row are one update with the second mapping laid
    over the first; repeating an update changes nothing more; updating with
    the empty mapping changes nothing. *)
Theorem update_compose (s : Segment) (m1 m2 : gmap string Z) :
  update (update s m1).2 m2 = update s (m2 ∪ m1) ∧
  update (update s m1).2 m1 = update s m1 ∧
  update s ∅ = (Ok (), s).
Proof.
  unfold update. simpl. split; [|split].
  - by rewrite (assoc_L (∪)).
  - by rewrite (assoc_L (∪)), (idemp_L (∪)).
  - rewrite (left_id_L ∅ (∪)). by destruct s.
Qed.

(** X11: neither mutator changes the schema or removes a stored name, so a
    conformant segment stays conformant under any sequence of item
    assignments and updates. *)
Theorem mutators_never_remove (s : Segment) (k : string) (v : Z)
    (m : gmap string Z) :
  names (__setitem__ s k v).2 = names s ∧
  names (update s m).2 = names s ∧
  (∀ x, is_Some (data s !! x) →
        is_Some (data (__setitem__ s k v).2 !! x) ∧
        is_Some (data (update s m).2 !! x)) ∧
  (conformant s →
   conformant (__setitem__ s k v).2 ∧ conformant (update s m).2).
Proof.
  assert (Hkeys : ∀ x, is_Some (data s !! x) →
            is_Some (data (__setitem__ s k v).2 !! x) ∧
            is_Some (data (update s m).2 !! x)).
  { intros x [w Hw]. split.
    - unfold __setitem__. case_bool_decide; simpl; [|by eexists].
      destruct (decide (k = x)) as [->|Hne].
      + rewrite lookup_insert_eq. by eexists.
      + rewrite lookup_insert_ne by done. by eexists.
    - simpl. rewrite lookup_union, Hw. destruct (m !! x); by eexists. }
  assert (Hn : names (__setitem__ s k v).2 = names s).
  { unfold __setitem__. by case_bool_decide. }
  split; [done|]. split; [done|]. split; [done|].
  intros Hc. split; intros n Hin.
  - rewrite Hn in Hin. by apply Hkeys, Hc.
  - by apply Hkeys, Hc.
Qed.

Lemma mutators_never_remove_witness :
  conformant (__setitem__ example_b "tone" 1).2 ∧
  conformant (update example_b {[ "tone" := 1 ]}).2.
Proof.
  apply (mutators_never_remove example_b "tone" 1 {[ "tone" := 1 ]}).
  apply example_b_conformant.
Defined.

(** X12: a name outside the schema that [update] has stored can be read
    back with item access, but item assignment refuses it and leaves the
    stored value in place. *)
Theorem extra_key_readable_not_writable (s : Segment) (k : string) (v : Z) :
  k ∉ names s →
  __getitem__ (update s {[ k := v ]}).2 k = Ok v ∧
  ∀ w, __setitem__ (update s {[ k := v ]}).2 k w
       = (Err (KeyError (KStr "Unknown feature name.")),
          (update s {[ k := v ]}).2) ∧
       __getitem__ (__setitem__ (update s {[ k := v ]}).2 k w).2 k = Ok v.
Proof.
  intros Hk.
  assert (Hget : __getitem__ (update s {[ k := v ]}).2 k = Ok v).
  { unfold __getitem__, subscript. simpl.
    by rewrite (lookup_union_Some_l _ _ k v) by apply lookup_singleton_eq. }
  split; [done|]. intros w.
  unfold __setitem__ at 1 2. simpl names.
  by rewrite bool_decide_eq_false_2.
Qed.

Lemma extra_key_readable_not_writable_witness :
  __getitem__ (update example_a {[ "tone" := 5 ]}).2 "tone" = Ok 5 ∧
  ∀ w, __setitem__ (update example_a {[ "tone" := 5 ]}).2 "tone" w
       = (Err (KeyError (KStr "Unknown feature name.")),
          (update example_a {[ "tone" := 5 ]}).2) ∧
       __getitem__
         (__setitem__ (update example_a {[ "tone" := 5 ]}).2 "tone" w).2
         "tone" = Ok 5.
Proof.
  apply (extra_key_readable_not_writable example_a "tone" 5). solve_names.
Defined.

(** *** Intersection as an operation on the stores *)

(** X13: [intersection] does not depend on the order of its arguments, a
    segment intersected with itself gives its whole store, and the result
    is contained in the store of either argument. *)
Theorem intersection_algebra (a b : Segment) :
  intersection a b = intersection b a ∧
  intersection a a = data a ∧
  intersection a b ⊆ data a ∧
  intersection a b ⊆ data b.
Proof.
  split; [|split; [|split]].
  - apply map_eq. intros k. apply option_eq. intros v.
    rewrite !intersection_lookup. tauto.
  - apply map_eq. intros k. apply option_eq. intros v.
    rewrite intersection_lookup. tauto.
  - apply map_subseteq_spec. intros k v Hkv.
    by apply intersection_lookup in Hkv as [? _].
  - apply map_subseteq_spec. intros k v Hkv.
    by apply intersection_lookup in Hkv as [_ ?].
Qed.

(** *** [update] given a segment *)

Lemma code_points_one (s : string) : one_code_point s → code_points s = [s].
Proof.
  intros (c & t & -> & Ht). revert c.
  induction t as [|c' t IH]; intros c; [done|].
  cbn [all_continuation] in Ht. apply andb_prop in Ht as [Hc' Ht].
  change (code_points (String c (String c' t)))
    with (match code_points (String c' t) with
          | String c'' t' :: rest =>
            if is_continuation c'' then String c (String c'' t') :: rest
            else String c "" :: String c'' t' :: rest
          | rest => String c "" :: rest
          end).
  rewrite (IH Ht c'). by rewrite Hc'.
Qed.

Lemma code_points_chunks (s : string) : Forall one_code_point (code_points s).
Proof.
  induction s as [|c s IH]; [constructor|].
  cbn [code_points].
  destruct (code_points s) as [|[|c' t] rest].
  - constructor; [by exists c, ""|constructor].
  - constructor; [by exists c, ""|done].
  - apply Forall_cons in IH as [(c1 & t1 & [= -> ->] & Ht1) Hrest].
    destruct (is_continuation c1) eqn:Hc1.
    + constructor; [|done]. exists c, (String c1 t1). split; [done|].
      cbn [all_continuation]. by rewrite Hc1, Ht1.
    + constructor; [by exists c, ""|].
      constructor; [by exists c1, t1|done].
Qed.

Lemma merge_from_seq2_long_keys (elems : list string)
    (d : gmap string pyvalue) (i : nat) (k : string) :
  List.length (code_points k) ≠ 1%nat →
  (merge_from_seq2 d i elems).2 !! k = d !! k.
Proof.
  intros Hk. revert d i. induction elems as [|e elems IH]; intros d i; [done|].
  cbn [merge_from_seq2]. pose proof (code_points_chunks e) as He.
  destruct (code_points e) as [|c1 [|c2 [|c3 cs]]]; try done.
  rewrite IH. apply lookup_insert_ne. intros <-. apply Hk.
  apply Forall_cons in He as [Hc1 _]. by rewrite (code_points_one c1 Hc1).
Qed.

Lemma merge_from_seq2_error (l1 l2 : list string) (n : string)
    (d : gmap string pyvalue) (i : nat) :
  Forall (fun x => List.length (code_points x) = 2%nat) l1 →
  List.length (code_points n) ≠ 2%nat →
  (merge_from_seq2 d i (l1 ++ n :: l2)%list).1
  = Err (update_seq_error (i + List.length l1) (List.length (code_points n))).
Proof.
  intros Hl1 Hn. revert d i.
  induction Hl1 as [|x l1 Hx Hl1 IH]; intros d i.
  - cbn [app merge_from_seq2 List.length]. rewrite Nat.add_0_r.
    by destruct (code_points n) as [|c1 [|c2 [|c3 cs]]].
  - cbn [app merge_from_seq2 List.length].
    destruct (code_points x) as [|c1 [|c2 [|c3 cs]]]; try done.
    rewrite IH. do 2 f_equal. lia.
Qed.

Lemma merge_from_seq2_returns (elems : list string)
    (d : gmap string pyvalue) (i : nat) :
  Forall (fun x => List.length (code_points x) = 2%nat) elems →
  (merge_from_seq2 d i elems).1 = Ok ().
Proof.
  intros Hl. revert d i.
  induction Hl as [|x l Hx Hl IH]; intros d i; [done|].
  cbn [merge_from_seq2].
  by destruct (code_points x) as [|c1 [|c2 [|c3 cs]]].
Qed.

(** X14: passing a segment to [update], as its docstring describes, never
    copies that segment's values: the argument's names are taken as
    (key, value) pairs of two characters.  So every stored name that is
    not one character long keeps its value; the first name of the argument
    that does not have two characters raises [ValueError] naming its
    position and its number of characters; and when every name has two
    characters the call returns. *)
Theorem update_segment_misreads (self segment : Segment) :
  (∀ k, List.length (code_points k) ≠ 1%nat →
        (update_segment self segment).2 !! k = VInt <$> data self !! k) ∧
  (∀ l1 n l2,
     names segment = (l1 ++ n :: l2)%list →
     Forall (fun x => List.length (code_points x) = 2%nat) l1 →
     List.length (code_points n) ≠ 2%nat →
     (update_segment self segment).1
     = Err (update_seq_error (List.length l1)
              (List.length (code_points n)))) ∧
  (Forall (fun x => List.length (code_points x) = 2%nat) (names segment) →
   (update_segment self segment).1 = Ok ()).
Proof.
  unfold update_segment, __iter__. split; [|split].
  - intros k Hk. rewrite merge_from_seq2_long_keys by done.
    apply lookup_fmap.
  - intros l1 n l2 Hnames Hl1 Hn. rewrite Hnames.
    by rewrite merge_from_seq2_error.
  - apply merge_from_seq2_returns.
Qed.

Lemma update_segment_misreads_witness :
  (update_segment example_a example_b).2 !! "voice" = Some (VInt 1) ∧
  (update_segment example_a example_b).1
  = Err (ValueError
           "dictionary update sequence element #0 has length 5; 2 is required") ∧
  (update_segment example_a example_pairs).1 = Ok ().
Proof.
  pose proof (update_segment_misreads example_a example_b) as (Hkeep & Herr & _).
  pose proof (update_segment_misreads example_a example_pairs) as (_ & _ & Hok).
  split; [|split].
  - rewrite Hkeep; [reflexivity|]. vm_compute. lia.
  - apply (Herr [] "voice" ["nasal"; "round"]).
    + reflexivity.
    + constructor.
    + vm_compute. lia.
  - apply Hok. repeat constructor.
Defined.

(** With two-character names the call returns, and what it stores is the
    names cut in two. *)
Example update_segment_pairs :
  (update_segment example_a example_pairs).1 = Ok () ∧
  (update_segment example_a example_pairs).2 !! "h" = Some (VStr "i") ∧
  (update_segment example_a example_pairs).2 !! "l" = Some (VStr "o").
Proof. repeat split; vm_compute; reflexivity. Qed.

(** Characters outside ASCII count once: a schema with the single name
    [é] raises for length 1, and the name [éx] overwrites the value stored
    under [é]. *)
Example update_segment_accents :
  code_points "éx" = ["é"; "x"] ∧
  (update_segment example_a example_accent).1
  = Err (ValueError
           "dictionary update sequence element #0 has length 1; 2 is required") ∧
  (update_segment example_accent example_accent_pair).1 = Ok () ∧
  (update_segment example_accent example_accent_pair).2 !! "é"
  = Some (VStr "x").
Proof. repeat split; vm_compute; reflexivity. Qed.

(** *** Sums over positions *)

Local Open Scope Z_scope.

Lemma position_sum_le (n : nat) (f g : nat → Z) :
  (∀ i, (i < n)%nat → f i ≤ g i) → position_sum n f ≤ position_sum n g.
Proof.
  revert f g. induction n as [|n IH]; intros f g Hfg; [done|].
  rewrite !position_sum_S.
  pose proof (Hfg 0%nat ltac:(lia)).
  pose proof (IH (fun i => f (S i)) (fun i => g (S i))
                 ltac:(intros i Hi; apply Hfg; lia)).
  lia.
Qed.

Lemma position_sum_ext (n : nat) (f g : nat → Z) :
  (∀ i, (i < n)%nat → f i = g i) → position_sum n f = position_sum n g.
Proof.
  intros Hfg. apply Z.le_antisymm; apply position_sum_le;
    intros i Hi; rewrite (Hfg i Hi); lia.
Qed.

Lemma position_sum_add (n : nat) (f g : nat → Z) :
  position_sum n (fun i => f i + g i) = position_sum n f + position_sum n g.
Proof.
  revert f g. induction n as [|n IH]; intros f g; [done|].
  rewrite !position_sum_S, (IH (fun i => f (S i)) (fun i => g (S i))). lia.
Qed.

Lemma position_sum_const (n : nat) (c : Z) :
  position_sum n (fun _ => c) = c * Z.of_nat n.
Proof.
  induction n as [|n IH]; [unfold position_sum; simpl; lia|].
  rewrite position_sum_S, IH. lia.
Qed.

Lemma position_sum_scale (n : nat) (c : Z) (f : nat → Z) :
  position_sum n (fun i => c * f i) = c * position_sum n f.
Proof.
  revert f. induction n as [|n IH]; intros f; [unfold position_sum; simpl; lia|].
  rewrite !position_sum_S, (IH (fun i => f (S i))). lia.
Qed.

Lemma position_sum_zero (n : nat) (f : nat → Z) :
  (∀ i, (i < n)%nat → 0 ≤ f i) →
  position_sum n f = 0 ↔ ∀ i, (i < n)%nat → f i = 0.
Proof.
  revert f. induction n as [|n IH]; intros f Hf.
  - split; [intros _ i Hi; lia|done].
  - rewrite position_sum_S.
    pose proof (Hf 0%nat ltac:(lia)) as H0.
    assert (Hf' : ∀ i, (i < n)%nat → 0 ≤ f (S i))
      by (intros i Hi; apply Hf; lia).
    pose proof (position_sum_le n (fun _ => 0) (fun i => f (S i)) Hf') as Hge.
    rewrite position_sum_const in Hge.
    specialize (IH (fun i => f (S i)) Hf'). split.
    + intros Hsum i Hi. destruct i as [|i]; [lia|].
      apply IH; lia.
    + intros Hall. rewrite (Hall 0%nat) by lia.
      rewrite (proj2 IH); [done|]. intros i Hi. apply Hall. lia.
Qed.

(** The value at a position of the vector of a conformant segment. *)
Lemma nth_stored (s : Segment) (i : nat) :
  (i < length (names s))%nat →
  ∃ n, n ∈ names s ∧ nth i (stored s <$> names s) 0 = stored s n.
Proof.
  intros Hi. destruct (lookup_lt_is_Some_2 (names s) i Hi) as [n Hn].
  exists n. split; [by eapply list_elem_of_lookup_2|].
  rewrite nth_lookup, list_lookup_fmap, Hn. done.
Qed.

(** *** The metrics as distances *)

(** X15: on conformant segments [distance] and [hamming_distance] do not
    depend on the order of the two segments. *)
Theorem distance_symmetric (a b : Segment) :
  conformant a → conformant b →
  distance a b = distance b a ∧ hamming_distance a b = hamming_distance b a.
Proof.
  intros Ha Hb.
  rewrite (distance_conformant a b), (distance_conformant b a) by done.
  rewrite (hamming_conformant a b), (hamming_conformant b a) by done.
  rewrite (Nat.min_comm (length (names b))).
  split; f_equal; apply position_sum_ext; intros i _.
  - lia.
  - unfold int_ne. repeat case_bool_decide; congruence.
Qed.

Lemma distance_symmetric_witness :
  distance example_a example_short = distance example_short example_a ∧
  hamming_distance example_a example_short
  = hamming_distance example_short example_a.
Proof.
  apply (distance_symmetric example_a example_short).
  - apply ternary_conformant, example_a_ternary.
  - apply example_short_conformant.
Defined.

(** X16: a conformant segment is at distance 0 and Hamming distance 0 from
    itself, and over a non-empty schema both normalised distances to itself
    are 0. *)
Theorem distance_self_zero (s : Segment) :
  conformant s →
  distance s s = Ok 0 ∧ hamming_distance s s = Ok 0 ∧
  (names s ≠ [] →
   norm_distance s s = Ok 0%Qc ∧ norm_hamming_distance s s = Ok 0%Qc).
Proof.
  intros Hs.
  assert (Hd : distance s s = Ok 0).
  { rewrite distance_conformant by done. f_equal.
    apply position_sum_zero; intros i _; lia. }
  assert (Hh : hamming_distance s s = Ok 0).
  { rewrite hamming_conformant by done. f_equal.
    apply position_sum_zero; intros i _; unfold int_ne;
      by rewrite bool_decide_eq_false_2 by (by intros []). }
  split; [done|]. split; [done|]. intros Hne.
  unfold norm_distance, norm_hamming_distance. rewrite Hd, Hh. cbn.
  split; apply truediv_0_l; by destruct (names s).
Qed.

Lemma distance_self_zero_witness :
  distance example_b example_b = Ok 0 ∧
  hamming_distance example_b example_b = Ok 0 ∧
  (names example_b ≠ [] →
   norm_distance example_b example_b = Ok 0%Qc ∧
   norm_hamming_distance example_b example_b = Ok 0%Qc).
Proof. apply (distance_self_zero example_b). apply example_b_conformant. Defined.

Lemma vectors_equal_positions (a b : Segment) :
  length (names a) = length (names b) →
  (∀ i, (i < length (names a))%nat →
        nth i (stored a <$> names a) 0 = nth i (stored b <$> names b) 0) →
  stored a <$> names a = stored b <$> names b.
Proof.
  intros Hlen Hnth. apply (nth_ext _ _ 0 0).
  - by rewrite !length_fmap.
  - intros i Hi. rewrite length_fmap in Hi. by apply Hnth.
Qed.

(** X17: for conformant segments over schemas of the same length, the
    distance is 0 exactly when the two numeric vectors are equal, and so is
    the Hamming distance. *)
Theorem distance_zero_iff_equal (a b : Segment) :
  conformant a → conformant b → length (names a) = length (names b) →
  (distance a b = Ok 0 ↔ numeric a = numeric b) ∧
  (hamming_distance a b = Ok 0 ↔ numeric a = numeric b).
Proof.
  intros Ha Hb Hlen.
  rewrite distance_conformant, hamming_conformant by done.
  rewrite !numeric_conformant by done.
  rewrite <- Hlen, Nat.min_id.
  split; split.
  - intros [= Hsum]. f_equal. apply vectors_equal_positions; [done|].
    intros i Hi.
    assert (Hnn : ∀ j, (j < length (names a))%nat →
              0 ≤ Z.abs (nth j (stored a <$> names a) 0
                         - nth j (stored b <$> names b) 0))
      by (intros j _; lia).
    pose proof (proj1 (position_sum_zero _ _ Hnn) Hsum i Hi) as Hz.
    cbn in Hz. lia.
  - intros [= Heq]. f_equal. apply position_sum_zero; intros i _;
      rewrite Heq; lia.
  - intros [= Hsum]. f_equal. apply vectors_equal_positions; [done|].
    intros i Hi.
    assert (Hnn : ∀ j, (j < length (names a))%nat →
              0 ≤ int_ne (nth j (stored a <$> names a) 0)
                         (nth j (stored b <$> names b) 0)).
    { intros j _. unfold int_ne. case_bool_decide; lia. }
    pose proof (proj1 (position_sum_zero _ _ Hnn) Hsum i Hi) as Hz.
    unfold int_ne in Hz. case_bool_decide as Hne; [lia|].
    exact Hne.
  - intros [= Heq]. f_equal. apply position_sum_zero; intros i _;
      rewrite Heq; unfold int_ne; case_bool_decide; first [lia|congruence].
Qed.

Lemma distance_zero_iff_equal_witness :
  (distance example_a example_b = Ok 0 ↔ numeric example_a = numeric example_b)
  ∧ (hamming_distance example_a example_b = Ok 0
     ↔ numeric example_a = numeric example_b).
Proof.
  apply (distance_zero_iff_equal example_a example_b).
  - apply ternary_conformant, example_a_ternary.
  - apply example_b_conformant.
  - reflexivity.
Defined.

(** X18: for conformant segments over schemas of one length both metrics
    obey the triangle inequality. *)
Theorem distance_triangle (a b c : Segment) :
  conformant a → conformant b → conformant c →
  length (names a) = length (names b) →
  length (names b) = length (names c) →
  ∃ dac dab dbc hac hab hbc,
    distance a c = Ok dac ∧ distance a b = Ok dab ∧ distance b c = Ok dbc ∧
    dac ≤ dab + dbc ∧
    hamming_distance a c = Ok hac ∧ hamming_distance a b = Ok hab ∧
    hamming_distance b c = Ok hbc ∧ hac ≤ hab + hbc.
Proof.
  intros Ha Hb Hc Hab Hbc.
  rewrite !distance_conformant, !hamming_conformant by done.
  rewrite <- Hbc, <- Hab, Nat.min_id.
  do 6 eexists.
  split; [reflexivity|]. split; [reflexivity|]. split; [reflexivity|].
  split; [|split; [reflexivity|split; [reflexivity|split; [reflexivity|]]]].
  - rewrite <- position_sum_add. apply position_sum_le. intros i _. lia.
  - rewrite <- position_sum_add. apply position_sum_le. intros i _.
    unfold int_ne. repeat case_bool_decide; first [lia|congruence].
Qed.

Lemma distance_triangle_witness :
  ∃ dac dab dbc hac hab hbc,
    distance example_a example_a = Ok dac ∧
    distance example_a example_b = Ok dab ∧
    distance example_b example_a = Ok dbc ∧
    dac ≤ dab + dbc ∧
    hamming_distance example_a example_a = Ok hac ∧
    hamming_distance example_a example_b = Ok hab ∧
    hamming_distance example_b example_a = Ok hbc ∧ hac ≤ hab + hbc.
Proof.
  apply (distance_triangle example_a example_b example_a);
    try apply example_b_conformant;
    try (apply ternary_conformant, example_a_ternary); reflexivity.
Defined.

Lemma hamming_bounds_distance_aux (a b : Segment) :
  conformant a → conformant b →
  ∃ h, hamming_distance a b = Ok h ∧ 0 ≤ h ∧
       h ≤ Z.of_nat (min (length (names a)) (length (names b))).
Proof.
  intros Ha Hb. rewrite hamming_conformant by done.
  set (m := min (length (names a)) (length (names b))).
  eexists. split; [reflexivity|]. split.
  - etrans; [|apply (position_sum_le m (fun _ => 0))].
    + rewrite position_sum_const. lia.
    + intros i _. unfold int_ne. case_bool_decide; lia.
  - etrans; [apply (position_sum_le m _ (fun _ => 1))|].
    + intros i _. unfold int_ne. case_bool_decide; lia.
    + rewrite position_sum_const. lia.
Qed.

(** X19: on conformant segments the Hamming distance is at least 0, at most
    the number of compared positions, and at most the distance; when both
    segments are ternary the distance is at most twice the Hamming
    distance. *)
Theorem hamming_bounds_distance (a b : Segment) :
  conformant a → conformant b →
  ∃ h d,
    hamming_distance a b = Ok h ∧ distance a b = Ok d ∧
    0 ≤ h ∧ h ≤ d ∧
    h ≤ Z.of_nat (min (length (names a)) (length (names b))) ∧
    (ternary a → ternary b → d ≤ 2 * h).
Proof.
  intros Ha Hb.
  rewrite distance_conformant, hamming_conformant by done.
  set (m := min (length (names a)) (length (names b))).
  do 2 eexists. split; [reflexivity|]. split; [reflexivity|].
  split; [|split; [|split]].
  - etrans; [|apply (position_sum_le m (fun _ => 0))].
    + rewrite position_sum_const. lia.
    + intros i _. unfold int_ne. case_bool_decide; lia.
  - apply position_sum_le. intros i _. unfold int_ne.
    case_bool_decide; lia.
  - etrans; [apply (position_sum_le m _ (fun _ => 1))|].
    + intros i _. unfold int_ne. case_bool_decide; lia.
    + rewrite position_sum_const. lia.
  - intros Hta Htb. rewrite <- position_sum_scale.
    apply position_sum_le. intros i Hi.
    destruct (nth_stored a i ltac:(lia)) as (na & Hna & ->).
    destruct (nth_stored b i ltac:(lia)) as (nb & Hnb & ->).
    pose proof (ternary_stored a na Hta Hna).
    pose proof (ternary_stored b nb Htb Hnb).
    unfold int_ne. case_bool_decide; lia.
Qed.

Lemma hamming_bounds_distance_witness :
  ∃ h d,
    hamming_distance example_a example_b = Ok h ∧
    distance example_a example_b = Ok d ∧
    0 ≤ h ∧ h ≤ d ∧
    h ≤ Z.of_nat (min (length (names example_a)) (length (names example_b))) ∧
    (ternary example_a → ternary example_b → d ≤ 2 * h).
Proof.
  apply (hamming_bounds_distance example_a example_b).
  - apply ternary_conformant, example_a_ternary.
  - apply example_b_conformant.
Defined.

(** *** Normalised distances *)

(** X20: for conformant segments over one schema [norm_hamming_distance]
    is the Hamming distance divided by [len(names)] with the division of
    the language: over a non-empty schema it returns a number between 0
    and 1, over the empty schema it raises [ZeroDivisionError]. *)
Theorem norm_hamming_exact (a b : Segment) :
  conformant a → conformant b → names a = names b →
  ∃ h,
    hamming_distance a b = Ok h ∧
    norm_hamming_distance a b = truediv h (length (names a)) ∧
    (names a ≠ [] →
     ∃ q, norm_hamming_distance a b = Ok q ∧
          (0 <= q)%Qc ∧ (q <= 1)%Qc) ∧
    (names a = [] → norm_hamming_distance a b = Err ZeroDivisionError).
Proof.
  intros Ha Hb Hn.
  destruct (hamming_bounds_distance_aux a b Ha Hb) as (h & Hh & H0 & Hmax).
  exists h. split; [done|].
  assert (Hnorm : norm_hamming_distance a b = truediv h (length (names a))).
  { unfold norm_hamming_distance. by rewrite Hh. }
  split; [done|]. rewrite Hnorm. split.
  - intros Hne.
    destruct (truediv_range h 0 (length (names a))) as (q & Hq & Hlo & Hhi);
      [by destruct (names a)|done|lia| |].
    + rewrite <- Hn, Nat.min_id in Hmax. lia.
    + exists q. split; [done|]. split; [done|].
      replace 1%Qc with (Z2Qc (2 ^ 0)); [done|].
      apply Qc_is_canon. reflexivity.
  - intros ->. apply truediv_zero.
Qed.

Lemma norm_hamming_exact_witness :
  ∃ h,
    hamming_distance example_a example_b = Ok h ∧
    norm_hamming_distance example_a example_b
    = truediv h (length (names example_a)) ∧
    (names example_a ≠ [] →
     ∃ q, norm_hamming_distance example_a example_b = Ok q ∧
          (0 <= q)%Qc ∧ (q <= 1)%Qc) ∧
    (names example_a = [] →
     norm_hamming_distance example_a example_b = Err ZeroDivisionError).
Proof.
  apply (norm_hamming_exact example_a example_b).
  - apply ternary_conformant, example_a_ternary.
  - apply example_b_conformant.
  - reflexivity.
Defined.

Lemma distance_ternary_bound (a b : Segment) :
  ternary a → ternary b →
  ∃ d, distance a b = Ok d ∧ 0 ≤ d ∧
       d ≤ 2 * Z.of_nat (min (length (names a)) (length (names b))).
Proof.
  intros Hta Htb.
  rewrite distance_conformant by by apply ternary_conformant.
  set (m := min (length (names a)) (length (names b))).
  eexists. split; [reflexivity|]. split.
  - etrans; [|apply (position_sum_le m (fun _ => 0))].
    + rewrite position_sum_const. lia.
    + intros i _. lia.
  - etrans; [apply (position_sum_le m _ (fun _ => 2))|].
    + intros i Hi.
      destruct (nth_stored a i ltac:(lia)) as (na & Hna & ->).
      destruct (nth_stored b i ltac:(lia)) as (nb & Hnb & ->).
      pose proof (ternary_stored a na Hta Hna).
      pose proof (ternary_stored b nb Htb Hnb). lia.
    + rewrite position_sum_const. lia.
Qed.

(** X21: for ternary segments over one non-empty schema [norm_distance]
    returns a number between 0 and 2. *)
Theorem norm_distance_range (a b : Segment) :
  ternary a → ternary b → names a = names b → names a ≠ [] →
  ∃ q, norm_distance a b = Ok q ∧ __sub__ a b = Ok q ∧
       (0 <= q)%Qc ∧ (q <= Z2Qc 2)%Qc.
Proof.
  intros Hta Htb Hn Hne.
  destruct (distance_ternary_bound a b Hta Htb) as (d & Hd & H0 & Hmax).
  rewrite <- Hn, Nat.min_id in Hmax.
  destruct (truediv_range d 1 (length (names a))) as (q & Hq & Hlo & Hhi);
    [by destruct (names a)|done|lia|done|].
  exists q. unfold __sub__, norm_distance. rewrite Hd. by cbn.
Qed.

Lemma norm_distance_range_witness :
  ∃ q, norm_distance example_a example_b = Ok q ∧
       __sub__ example_a example_b = Ok q ∧
       (0 <= q)%Qc ∧ (q <= Z2Qc 2)%Qc.
Proof.
  apply (norm_distance_range example_a example_b).
  - apply example_a_ternary.
  - intros n Hn. destruct (example_b_conformant n Hn) as [v Hv].
    exists v. split; [done|]. cbn in Hn.
    repeat (apply elem_of_cons in Hn as [->|Hn];
            [vm_compute in Hv; injection Hv as <-; lia|]).
    by apply elem_of_nil in Hn.
  - reflexivity.
  - discriminate.
Defined.

(** *** The vector after a mutation *)

(** X23: after [update(m)] on a conformant segment the numeric vector
    holds, at each schema name, the value [m] gives it if [m] has one and
    the earlier value otherwise; after a successful item assignment it
    holds the new value at every position of that name and the earlier
    values elsewhere. *)
Theorem numeric_after_mutation (s : Segment) :
  conformant s →
  (∀ m, numeric (update s m).2
        = Ok ((fun n => default (stored s n) (m !! n)) <$> names s)) ∧
  (∀ k v, k ∈ names s →
          numeric (__setitem__ s k v).2
          = Ok ((fun n => if decide (k = n) then v else stored s n)
                  <$> names s)).
Proof.
  intros Hs. split.
  - intros m. rewrite numeric_conformant by by apply update_conformant.
    f_equal. apply list_fmap_ext. intros i n _.
    unfold stored. simpl. rewrite lookup_union.
    by destruct (m !! n), (data s !! n).
  - intros k v Hk. rewrite numeric_conformant by by apply setitem_conformant.
    unfold __setitem__. rewrite bool_decide_eq_true_2 by done. cbn [snd].
    f_equal. apply list_fmap_ext. intros i n _. apply stored_insert.
Qed.

Lemma numeric_after_mutation_witness :
  numeric (update example_b {[ "nasal" := 0; "tone" := 1 ]}).2
  = Ok ((fun n => default (stored example_b n)
                    (({[ "nasal" := 0; "tone" := 1 ]} : gmap string Z) !! n))
          <$> names example_b).
Proof.
  apply (proj1 (numeric_after_mutation example_b example_b_conformant)).
Defined.

Lemma position_sum_single (n j : nat) (f : nat → Z) :
  (j < n)%nat → (∀ i, (i < n)%nat → i ≠ j → f i = 0) →
  position_sum n f = f j.
Proof.
  revert j f. induction n as [|n IH]; intros j f Hj Hz; [lia|].
  rewrite position_sum_S. destruct j as [|j].
  - rewrite (position_sum_ext n _ (fun _ => 0)), position_sum_const; [lia|].
    intros i Hi. apply Hz; lia.
  - rewrite (Hz 0%nat) by lia.
    rewrite (IH j (fun i => f (S i))); [lia|lia|].
    intros i Hi Hne. apply Hz; lia.
Qed.

(** X24: over a schema without repeated names, assigning a value to one
    schema name of a conformant segment moves it, from where it was, by the
    absolute change of that value in [distance] and by 1 or 0 in
    [hamming_distance]. *)
Theorem distance_after_setitem (s : Segment) (k : string) (v : Z) :
  conformant s → NoDup (names s) → k ∈ names s →
  distance s (__setitem__ s k v).2 = Ok (Z.abs (stored s k - v)) ∧
  hamming_distance s (__setitem__ s k v).2 = Ok (int_ne (stored s k) v).
Proof.
  intros Hs Hnd Hk.
  pose proof (setitem_conformant s k v Hs) as Hs'.
  rewrite distance_conformant, hamming_conformant by done.
  revert Hs'. unfold __setitem__. rewrite bool_decide_eq_true_2 by done.
  cbn [snd names]. intros _. rewrite Nat.min_id.
  apply list_elem_of_lookup in Hk as [j Hj].
  pose proof (lookup_lt_Some _ _ _ Hj) as Hlt.
  assert (Hat : ∀ i n, names s !! i = Some n →
            nth i (stored s <$> names s) 0 = stored s n ∧
            nth i (stored (mkSegment (names s) (<[k := v]> (data s)))
                     <$> names s) 0
            = if decide (k = n) then v else stored s n).
  { intros i n Hi. rewrite !nth_lookup, !list_lookup_fmap, Hi. simpl.
    split; [done|]. apply stored_insert. }
  assert (Hother : ∀ i, (i < length (names s))%nat → i ≠ j →
            nth i (stored s <$> names s) 0
            = nth i (stored (mkSegment (names s) (<[k := v]> (data s)))
                       <$> names s) 0).
  { intros i Hi Hne. destruct (lookup_lt_is_Some_2 _ _ Hi) as [n Hn].
    destruct (Hat i n Hn) as [-> ->]. rewrite decide_False; [done|].
    intros <-. apply Hne. by eapply NoDup_lookup. }
  destruct (Hat j k Hj) as [Hj1 Hj2]. rewrite decide_True in Hj2 by done.
  split; f_equal.
  - rewrite (position_sum_single _ j); [by rewrite Hj1, Hj2|done|].
    intros i Hi Hne. rewrite (Hother i Hi Hne). lia.
  - rewrite (position_sum_single _ j); [by rewrite Hj1, Hj2|done|].
    intros i Hi Hne. rewrite (Hother i Hi Hne). unfold int_ne.
    by rewrite bool_decide_eq_false_2 by (by intros []).
Qed.

Lemma distance_after_setitem_witness :
  distance example_b (__setitem__ example_b "nasal" (-1)).2
  = Ok (Z.abs (stored example_b "nasal" - -1)) ∧
  hamming_distance example_b (__setitem__ example_b "nasal" (-1)).2
  = Ok (int_ne (stored example_b "nasal") (-1)).
Proof.
  apply (distance_after_setitem example_b "nasal" (-1)).
  - apply example_b_conformant.
  - cbn. repeat (constructor; [solve_names|]). constructor.
  - solve_names.
Defined.

